(** * Kubernetes registry plugin: selector codec, registry and watcher

    A shallow embedding of [registry/kubernetes/watcher.go] (the registry and
    its watcher live in the same file) together with the facts the
    specification states about them.

    Conventions.
    - A Go [string] is a Rocq [string] (a sequence of bytes); [[]byte] is
      [list ascii].
    - A Go [map[string]T] is a [gmap string T]; a [map[string]*string] is a
      [gmap string (option string)], [None] being the nil pointer.  Ranging
      over a map visits the entries in the order of [map_to_list]; no
      statement below depends on that order.
    - Calls to the kubernetes client and to the process environment are the
      constructors of a small free monad [prog]; an interpreter runs a
      program against a store and records the store calls it issues. *)

From stdpp Require Import gmap strings list fin_maps sets pretty.
From Stdlib Require Import Ascii.

#[local] Open Scope string_scope.
#[local] Open Scope list_scope.

(** ** Selector codec *)

(** One item of a POSIX bracket expression: a literal byte or a range. *)
Inductive bracket_item : Type :=
| Lit (c : ascii)
| Range (lo hi : ascii).

Definition item_matches (c : ascii) (it : bracket_item) : bool :=
  match it with
  | Lit d => Nat.eqb (nat_of_ascii c) (nat_of_ascii d)
  | Range lo hi =>
      Nat.leb (nat_of_ascii lo) (nat_of_ascii c)
      && Nat.leb (nat_of_ascii c) (nat_of_ascii hi)
  end.

(** [labelRe = regexp.MustCompilePOSIX("[-A-Za-z0-9_.]")]: a leading [-] is
    a literal, then three ranges and two literals. *)
Definition labelRe : list bracket_item :=
  [Lit "-"; Range "A" "Z"; Range "a" "z"; Range "0" "9"; Lit "_"; Lit "."]%char.

Definition in_bracket (c : ascii) : bool := existsb (item_matches c) labelRe.

(** [labelRe.Match(b)]: the expression is not anchored, so a byte slice
    matches as soon as one of its bytes is in the bracket.  (A byte above
    127 is not a rune of the class, and no range reaches it.) *)
Definition labelRe_Match (b : list ascii) : bool := existsb in_bracket b.

(** The body of the loop of [serviceName]: [aname] is the output buffer,
    [i] the index of the byte [r] being visited. *)
Fixpoint serviceName_loop (i : nat) (bs aname : list ascii) : list ascii :=
  match bs with
  | [] => aname
  | r :: bs' =>
      if negb (labelRe_Match [r])
      then serviceName_loop (S i) bs' (<[i := "_"%char]> aname)
      else serviceName_loop (S i) bs' (<[i := r]> aname)
  end.

(** [serviceName] generates a valid service name for k8s labels. *)
Definition serviceName (name : string) : string :=
  let bs := String.list_ascii_of_string name in
  let aname := replicate (length bs) zero in
  String.string_of_list_ascii (serviceName_loop 0 bs aname).

(** The characters the specification lists for the class, spelled out. *)
Definition label_alphabet : list ascii :=
  String.list_ascii_of_string
    "-ABCDEFGHIJKLMNOPQRSTUVWXYZabcdefghijklmnopqrstuvwxyz0123456789_.".

(** ** Data model *)

(** [registry.Node] and [registry.Service] of go-micro, with the fields the
    specification lists for a service record. *)
Record Node : Type := mkNode {
  Node_Id : string;
  Node_Address : string;
  Node_Port : Z;
  Node_Metadata : gmap string string
}.

Record Service : Type := mkService {
  Service_Name : string;
  Service_Version : string;
  Service_Metadata : gmap string string;
  Service_Nodes : list Node
}.

(** [registry.Result]: what a watcher delivers. *)
Record Result : Type := mkResult {
  Result_Action : string;
  Result_Service : Service
}.

(** [client.Meta] and [client.Secret].  [Metadata] is a pointer in the
    source ([secret.Metadata != nil]), hence the [option]. *)
Record Meta : Type := mkMeta {
  Meta_Name : string;
  Meta_Labels : gmap string (option string);
  Meta_Annotations : gmap string (option string)
}.

Record Secret : Type := mkSecret {
  Secret_Metadata : option Meta;
  Secret_Data : gmap string string
}.

(** [client.SecretList] *)
Record SecretList : Type := mkSecretList {
  Items : list Secret
}.

(** [watch.EventType] and [watch.Event]; [Object] is the raw JSON of the
    object the notification is about. *)
Inductive EventType : Type := Added | Modified | Deleted.

Record Event : Type := mkEvent {
  Event_Type : EventType;
  Event_Object : string
}.

(** Go [error] values.  Errors are compared by identity in Go, so each
    place that makes one has its constructor: the sentinel
    [registry.ErrNotFound], the errors built in this file with
    [errors.New] and [fmt.Errorf], the errors the kubernetes client hands
    back (passed on untouched) and those of [json.Marshal]. *)
Inductive error : Type :=
| ErrNotFound
| errors_New (msg : string)
| ClientError (msg : string)
| MarshalError (msg : string).

Inductive result (A : Type) : Type :=
| Ok (a : A)
| Err (e : error).
Arguments Ok {A} a.
Arguments Err {A} e.

(** A run of Go code either returns or panics. *)
Inductive outcome (A : Type) : Type :=
| Returns (a : A)
| Panics (msg : string).
Arguments Returns {A} a.
Arguments Panics {A} msg.

(** [encoding/json], as far as this package uses it: [json.Marshal] of a
    service, [json.Unmarshal] into a [registry.Service] and into a
    [client.Secret].  The package is not part of this repository; the
    development is parametric in it. *)
Class JSON : Type := {
  json_Marshal : Service → string + string;
  json_Unmarshal : string → option Service;
  json_Unmarshal_Secret : string → option Secret
}.

(** ** The kubernetes client and the environment, as a free monad *)

(** A program returning [A]: it returns, reads an environment variable, or
    calls one of the client's methods and goes on with the answer.  The
    client answers with a value or with an error message of its own. *)
Inductive prog (A : Type) : Type :=
| Ret (a : A)
| Getenv (key : string) (k : string → prog A)
| CreateSecret (name : string) (s : Secret) (k : Secret + string → prog A)
| DeleteSecret (name : string) (k : option string → prog A)
| ListSecrets (labels : gmap string string) (k : SecretList + string → prog A).
Arguments Ret {A} a.
Arguments Getenv {A} key k.
Arguments CreateSecret {A} name s k.
Arguments DeleteSecret {A} name k.
Arguments ListSecrets {A} labels k.

Fixpoint bind {A B : Type} (p : prog A) (f : A → prog B) : prog B :=
  match p with
  | Ret a => f a
  | Getenv key k => Getenv key (λ x, bind (k x) f)
  | CreateSecret name s k => CreateSecret name s (λ x, bind (k x) f)
  | DeleteSecret name k => DeleteSecret name (λ x, bind (k x) f)
  | ListSecrets labels k => ListSecrets labels (λ x, bind (k x) f)
  end.

Definition os_Getenv (key : string) : prog string := Getenv key Ret.
Definition client_CreateSecret (name : string) (s : Secret) : prog (Secret + string) :=
  CreateSecret name s Ret.
Definition client_DeleteSecret (name : string) : prog (option string) :=
  DeleteSecret name Ret.
Definition client_ListSecrets (labels : gmap string string) : prog (SecretList + string) :=
  ListSecrets labels Ret.

#[global] Instance prog_ret : MRet prog := λ A a, Ret a.
#[global] Instance prog_bind : MBind prog := λ A B f p, bind p f.

(** A call that reached the store, as the interpreter records it. *)
Inductive store_call : Type :=
| CallCreate (name : string) (s : Secret)
| CallDelete (name : string)
| CallList (labels : gmap string string).

(** ** Registry *)

Definition svcSelectorPrefix : string := "micro.mu/selector-".
Definition svcSelectorValue : string := "service".
Definition labelTypeKey : string := "micro.mu/type".
Definition labelTypeValueService : string := "service".
Definition annotationServiceKeyPrefix : string := "micro.mu/service-".
Definition dataServiceKeyPrefix : string := "micro.mu/service-".

Definition secretSelector : gmap string string :=
  {[ labelTypeKey := labelTypeValueService ]}.

(** [strings.HasPrefix(s, prefix)] *)
Definition strings_HasPrefix (s prefix : string) : bool := String.prefix prefix s.

(** The secret literal of [Register]. *)
Definition registerSecret (podName svcName svc : string) : Secret :=
  {| Secret_Metadata := Some
       {| Meta_Name := podName;
          Meta_Labels :=
            <[ labelTypeKey := Some labelTypeValueService ]>
              {[ svcSelectorPrefix +:+ svcName := Some svcSelectorValue ]};
          Meta_Annotations := ∅ |};
     Secret_Data := {[ dataServiceKeyPrefix +:+ svcName := svc ]} |}.

Section Registry.
Context `{J : JSON}.

(** [Register]: [None] is the nil error.  The source's last statement,
    [if _, err := c.client.CreateSecret(podName, secret) != nil], is read
    as [if _, err := ...; err != nil]: the error of the client is
    returned. *)
Definition Register (s : Service) : prog (option error) :=
  if Nat.eqb (length (Service_Nodes s)) 0
  then Ret (Some (errors_New "you must register at least one node"))
  else
    podName ← os_Getenv "HOSTNAME";
    let svcName := serviceName (Service_Name s) in
    match json_Marshal s with
    | inr e => Ret (Some (MarshalError e))
    | inl svc =>
        r ← client_CreateSecret podName (registerSecret podName svcName svc);
        match r with
        | inr e => Ret (Some (ClientError e))
        | inl _ => Ret None
        end
    end.

Definition Deregister (s : Service) : prog (option error) :=
  if Nat.eqb (length (Service_Nodes s)) 0
  then Ret (Some (errors_New "you must deregister at least one node"))
  else
    podName ← os_Getenv "HOSTNAME";
    r ← client_DeleteSecret podName;
    match r with
    | Some e => Ret (Some (ClientError e))
    | None => Ret None
    end.

(** The loop of [GetService] over [secrets.Items]; [svcs] is the slice
    built so far.  [Data] holds strings, as in the literal of [Register]:
    the [*svcStr] of the source reads the entry. *)
Fixpoint GetService_loop (name svcName : string) (items : list Secret)
    (svcs : list Service) : result (list Service) :=
  match items with
  | [] => Ok svcs
  | secret :: items' =>
      match Secret_Data secret !! (dataServiceKeyPrefix +:+ svcName) with
      | None => GetService_loop name svcName items' svcs
      | Some svcStr =>
          match json_Unmarshal svcStr with
          | None =>
              Err (errors_New ("could not unmarshal service '" +:+ name
                                 +:+ "' from pod annotation"))
          | Some svc => GetService_loop name svcName items' (svcs ++ [svc])
          end
      end
  end.

Definition GetService (name : string) : prog (result (list Service)) :=
  let svcName := serviceName name in
  r ← client_ListSecrets {[ svcSelectorPrefix +:+ svcName := svcSelectorValue ]};
  match r with
  | inr e => Ret (Err (ClientError e))
  | inl secrets =>
      if Nat.eqb (length (Items secrets)) 0
      then Ret (Err ErrNotFound)
      else Ret (GetService_loop name svcName (Items secrets) [])
  end.

(** The inner loop of [ListServices], over the annotations of one
    secret; [*v] panics on a nil value. *)
Fixpoint ListServices_annotations (kvs : list (string * option string))
    (svcs : gmap string bool) : outcome (gmap string bool) :=
  match kvs with
  | [] => Returns svcs
  | (k, v) :: kvs' =>
      if negb (strings_HasPrefix k dataServiceKeyPrefix)
      then ListServices_annotations kvs' svcs
      else
        match v with
        | None => Panics "invalid memory address or nil pointer dereference"
        | Some str =>
            match json_Unmarshal str with
            | None => ListServices_annotations kvs' svcs
            | Some svc =>
                ListServices_annotations kvs' (<[ Service_Name svc := true ]> svcs)
            end
        end
  end.

(** The outer loop, over [secrets.Items]; [secret.Metadata.Annotations]
    panics on a nil [Metadata]. *)
Fixpoint ListServices_loop (items : list Secret) (svcs : gmap string bool)
    : outcome (gmap string bool) :=
  match items with
  | [] => Returns svcs
  | secret :: items' =>
      match Secret_Metadata secret with
      | None => Panics "invalid memory address or nil pointer dereference"
      | Some meta =>
          match ListServices_annotations (map_to_list (Meta_Annotations meta)) svcs with
          | Panics msg => Panics msg
          | Returns svcs' => ListServices_loop items' svcs'
          end
      end
  end.

(** A service record with a name and nothing else. *)
Definition named (val : string) : Service :=
  {| Service_Name := val; Service_Version := EmptyString;
     Service_Metadata := ∅; Service_Nodes := [] |}.

Definition ListServices : prog (outcome (result (list Service))) :=
  r ← client_ListSecrets secretSelector;
  match r with
  | inr e => Ret (Returns (Err (ClientError e)))
  | inl secrets =>
      match ListServices_loop (Items secrets) ∅ with
      | Panics msg => Ret (Panics msg)
      | Returns svcs => Ret (Returns (Ok (named <$> (map_to_list svcs).*1)))
      end
  end.

End Registry.

(** ** Running a program against a store *)

(** What answers the calls: the environment and the client's four methods,
    over some state [W] of the world. *)
Record Handler (W : Type) : Type := mkHandler {
  h_getenv : string → W → string;
  h_create : string → Secret → W → (Secret + string) * W;
  h_delete : string → W → option string * W;
  h_list : gmap string string → W → (SecretList + string) * W
}.
Arguments h_getenv {W} _ _ _.
Arguments h_create {W} _ _ _ _.
Arguments h_delete {W} _ _ _.
Arguments h_list {W} _ _ _.

(** [run h p w]: the value [p] returns, the world it leaves and the store
    calls it made, in order. *)
Fixpoint run {W A : Type} (h : Handler W) (p : prog A) (w : W)
    : A * W * list store_call :=
  match p with
  | Ret a => (a, w, [])
  | Getenv key k => run h (k (h_getenv h key w)) w
  | CreateSecret name s k =>
      let '(r, w1) := h_create h name s w in
      let '(a, w2, calls) := run h (k r) w1 in
      (a, w2, CallCreate name s :: calls)
  | DeleteSecret name k =>
      let '(r, w1) := h_delete h name w in
      let '(a, w2, calls) := run h (k r) w1 in
      (a, w2, CallDelete name :: calls)
  | ListSecrets labels k =>
      let '(r, w1) := h_list h labels w in
      let '(a, w2, calls) := run h (k r) w1 in
      (a, w2, CallList labels :: calls)
  end.

Definition value {W A : Type} (x : A * W * list store_call) : A := x.1.1.
Definition world {W A : Type} (x : A * W * list store_call) : W := x.1.2.
Definition calls {W A : Type} (x : A * W * list store_call) : list store_call := x.2.

(** Modelled from the spec: the record store behind the client (the
    control plane is not part of this repository).  It keeps one record per
    id; [CreateRecord] puts the record under its id, replacing a previous
    one; [DeleteRecord] removes it and reports a missing record as an
    error; [ListRecords] returns the records that carry every label of the
    selector.  The process environment holds [HOSTNAME]. *)
Record World : Type := mkWorld {
  environ : gmap string string;
  secrets : gmap string Secret
}.

Definition selects (labels : gmap string string) (s : Secret) : bool :=
  match Secret_Metadata s with
  | None => forallb (λ _, false) (map_to_list labels)
  | Some meta =>
      forallb (λ kv : string * string,
                 bool_decide (Meta_Labels meta !! kv.1 = Some (Some kv.2)))
              (map_to_list labels)
  end.

Definition mem_getenv (key : string) (w : World) : string :=
  default EmptyString (environ w !! key).

Definition mem_create (name : string) (s : Secret) (w : World)
    : (Secret + string) * World :=
  (inl s, {| environ := environ w; secrets := <[ name := s ]> (secrets w) |}).

Definition mem_delete (name : string) (w : World) : option string * World :=
  match secrets w !! name with
  | Some _ => (None, {| environ := environ w; secrets := delete name (secrets w) |})
  | None => (Some "not found", w)
  end.

Definition mem_list (labels : gmap string string) (w : World)
    : (SecretList + string) * World :=
  (inl {| Items := List.filter (selects labels) (map_to_list (secrets w)).*2 |}, w).

(** Modelled from the spec: the Record Store Client ([ListRecords],
    [CreateRecord], [DeleteRecord]) over the records of [World]. *)
Definition mem : Handler World :=
  {| h_getenv := mem_getenv; h_create := mem_create;
     h_delete := mem_delete; h_list := mem_list |}.

(** A process whose [HOSTNAME] is [pod], in front of the records [st]. *)
Definition on_pod (pod : string) (st : gmap string Secret) : World :=
  {| environ := {[ "HOSTNAME" := pod ]}; secrets := st |}.

(** ** Watcher *)

Section Watcher.
Context `{J : JSON}.

(** The loop of [buildSecretResults] over the annotations; [results] is
    the slice built so far. *)
Fixpoint buildSecretResults_loop (kvs : list (string * option string))
    (action : string) (results : list Result) : list Result :=
  match kvs with
  | [] => results
  | (ak, av) :: kvs' =>
      if negb (strings_HasPrefix ak dataServiceKeyPrefix)
      then buildSecretResults_loop kvs' action results
      else
        match av with
        | None => buildSecretResults_loop kvs' action results
        | Some str =>
            match json_Unmarshal str with
            | None => buildSecretResults_loop kvs' action results
            | Some svc =>
                buildSecretResults_loop kvs' action
                  (results ++ [{| Result_Action := action; Result_Service := svc |}])
            end
        end
  end.

Definition buildSecretResults (secret : Secret) (action : string) : list Result :=
  match Secret_Metadata secret with
  | Some meta =>
      buildSecretResults_loop (map_to_list (Meta_Annotations meta)) action []
  | None => []
  end.

(** [handleEvent]: the results it sends on [k.next], in order. *)
Definition handleEvent (event : Event) : list Result :=
  match json_Unmarshal_Secret (Event_Object event) with
  | None => []
  | Some secret =>
      match Event_Type event with
      | Added => buildSecretResults secret "create"
      | Deleted => buildSecretResults secret "delete"
      | Modified => []
      end
  end.

(** The selector [newWatcher] asks the client to watch; [service] is
    [wo.Service]. *)
Definition newWatcher_selector (service : string) : gmap string string :=
  if Nat.ltb 0 (String.length service)
  then {[ svcSelectorPrefix +:+ serviceName service := svcSelectorValue ]}
  else secretSelector.

End Watcher.

(** ** The watch session: goroutines around the channel [k.next] *)

(** The session's code, cut at the points where goroutines interleave:
    every channel operation is one instruction. *)
Inductive instr : Type :=
| IRange                (* for event := range watcher.ResultChan() *)
| ISend (r : Result)    (* k.next <- result *)
| IWatcherStop          (* k.watcher.Stop() *)
| ISelect               (* select { case <-k.next: return  default: } *)
| IClose                (* close(k.next) *)
| INext.                (* r, ok := <-k.next  and the return of Next *)

(** [Stop]: when its [select] receives, [Stop] returns and the [close]
    that follows is not run. *)
Definition Stop : list instr := [IWatcherStop; ISelect; IClose].

(** [Next] *)
Definition Next : list instr := [INext].

(** The goroutine [newWatcher] starts. *)
Definition forwarding_task : list instr := [IRange].

Record goroutine : Type := mkGoroutine {
  code : list instr;
  got : list (result Result)      (* what its calls of [Next] returned *)
}.

(** The upstream subscription is a finite stream: the events it still
    holds, then closure; [watcher.Stop()] closes it at once. *)
Record session : Type := mkSession {
  next_closed : bool;
  upstream : list Event;
  upstream_stopped : bool;
  goroutines : list goroutine;
  panicked : option string
}.

Definition sending (g : goroutine) : option Result :=
  match code g with
  | ISend r :: _ => Some r
  | _ => None
  end.

(** The first goroutine blocked in a send on [k.next], if any. *)
Fixpoint find_sender (j : nat) (gs : list goroutine) : option (nat * Result) :=
  match gs with
  | [] => None
  | g :: gs' =>
      match sending g with
      | Some r => Some (j, r)
      | None => find_sender (S j) gs'
      end
  end.

Definition advance (g : goroutine) : goroutine :=
  {| code := tail (code g); got := got g |}.

Definition set_goroutines (s : session) (gs : list goroutine) : session :=
  {| next_closed := next_closed s; upstream := upstream s;
     upstream_stopped := upstream_stopped s; goroutines := gs;
     panicked := panicked s |}.

Definition set_panicked (s : session) (msg : string) : session :=
  {| next_closed := next_closed s; upstream := upstream s;
     upstream_stopped := upstream_stopped s; goroutines := goroutines s;
     panicked := Some msg |}.

Section Session.
Context `{J : JSON}.

(** One instruction of goroutine [i]; [None] when the session has
    panicked, or the goroutine does not exist, has finished or is
    blocked. *)
Definition step (i : nat) (s : session) : option session :=
  match panicked s with
  | Some _ => None
  | None =>
      g ← goroutines s !! i;
      match code g with
      | [] => None
      | IRange :: rest =>
          if upstream_stopped s
          then Some (set_goroutines s
                       (<[ i := {| code := Stop ++ rest; got := got g |} ]> (goroutines s)))
          else
            match upstream s with
            | [] =>
                Some (set_goroutines s
                        (<[ i := {| code := Stop ++ rest; got := got g |} ]> (goroutines s)))
            | event :: events =>
                Some {| next_closed := next_closed s; upstream := events;
                        upstream_stopped := upstream_stopped s;
                        goroutines :=
                          <[ i := {| code := (ISend <$> handleEvent event) ++ IRange :: rest;
                                     got := got g |} ]> (goroutines s);
                        panicked := None |}
            end
      | ISend _ :: _ =>
          if next_closed s then Some (set_panicked s "send on closed channel")
          else None
      | IWatcherStop :: rest =>
          Some {| next_closed := next_closed s; upstream := upstream s;
                  upstream_stopped := true;
                  goroutines := <[ i := {| code := rest; got := got g |} ]> (goroutines s);
                  panicked := None |}
      | ISelect :: rest =>
          if next_closed s
          then Some (set_goroutines s
                       (<[ i := {| code := tail rest; got := got g |} ]> (goroutines s)))
          else
            match find_sender 0 (goroutines s) with
            | Some (j, _) =>
                Some (set_goroutines s
                        (<[ i := {| code := tail rest; got := got g |} ]>
                           (alter advance j (goroutines s))))
            | None =>
                Some (set_goroutines s
                        (<[ i := {| code := rest; got := got g |} ]> (goroutines s)))
            end
      | IClose :: rest =>
          if next_closed s then Some (set_panicked s "close of closed channel")
          else
            Some {| next_closed := true; upstream := upstream s;
                    upstream_stopped := upstream_stopped s;
                    goroutines := <[ i := {| code := rest; got := got g |} ]> (goroutines s);
                    panicked := None |}
      | INext :: rest =>
          if next_closed s
          then Some (set_goroutines s
                       (<[ i := {| code := rest;
                                   got := got g ++ [Err (errors_New "result chan closed")] |} ]>
                          (goroutines s)))
          else
            match find_sender 0 (goroutines s) with
            | Some (j, r) =>
                Some (set_goroutines s
                        (<[ i := {| code := rest; got := got g ++ [Ok r] |} ]>
                           (alter advance j (goroutines s))))
            | None => None
            end
      end
  end.

(** Runs the goroutines in the order of [schedule]; [None] when the
    schedule names a goroutine that cannot move. *)
Fixpoint exec (schedule : list nat) (s : session) : option session :=
  match schedule with
  | [] => Some s
  | i :: schedule' => s' ← step i s; exec schedule' s'
  end.

(** A session right after [newWatcher]: the forwarding task first, then
    the goroutines of the callers. *)
Definition new_session (events : list Event) (callers : list (list instr)) : session :=
  {| next_closed := false; upstream := events; upstream_stopped := false;
     goroutines :=
       {| code := forwarding_task; got := [] |}
         :: ((λ c, {| code := c; got := [] |}) <$> callers);
     panicked := None |}.

End Session.

(** ** A JSON codec

    An implementation of the [JSON] interface for the documents this
    package exchanges: objects, arrays, strings in which the quote and the
    backslash are escaped, integers and the three literals.  Field names are the
    [json] tags of [registry.Service], [registry.Node], [client.Secret]
    and [client.Meta]. *)

Module json.

#[warning="-register-all"]
Inductive value : Type :=
| Null
| Bool (b : bool)
| Number (n : Z)
| Str (s : string)
| Array (vs : list value)
| Object (kvs : list (string * value)).

Definition dquote : ascii := "034"%char.
Definition backslash : ascii := "092"%char.

Definition chars (s : string) : list ascii := String.list_ascii_of_string s.
Definition text (cs : list ascii) : string := String.string_of_list_ascii cs.

(** *** Printing *)

Fixpoint escape (cs : list ascii) : list ascii :=
  match cs with
  | [] => []
  | c :: cs' =>
      if Ascii.eqb c dquote || Ascii.eqb c backslash
      then backslash :: c :: escape cs'
      else c :: escape cs'
  end.

Definition quote (s : string) : list ascii :=
  (dquote :: escape (chars s) ++ [dquote])%list.

Fixpoint print (v : value) : list ascii :=
  (match v with
  | Null => chars "null"
  | Bool true => chars "true"
  | Bool false => chars "false"
  | Number n => chars (pretty n)
  | Str s => quote s
  | Array vs =>
      chars "["
      ++ (fix elements (vs : list value) : list ascii :=
            match vs with
            | [] => []
            | [v] => print v
            | v :: vs' => print v ++ chars "," ++ elements vs'
            end) vs
      ++ chars "]"
  | Object kvs =>
      chars "{"
      ++ (fix members (kvs : list (string * value)) : list ascii :=
            match kvs with
            | [] => []
            | [(k, v)] => quote k ++ chars ":" ++ print v
            | (k, v) :: kvs' => quote k ++ chars ":" ++ print v ++ chars "," ++ members kvs'
            end) kvs
      ++ chars "}"
  end)%list.

(** *** Parsing *)

Definition is_space (c : ascii) : bool :=
  Ascii.eqb c " " || Ascii.eqb c "009" || Ascii.eqb c "010" || Ascii.eqb c "013".

Definition digit (c : ascii) : option Z :=
  let n := nat_of_ascii c in
  if Nat.leb 48 n && Nat.leb n 57 then Some (Z.of_nat (n - 48)) else None.

Fixpoint skip_space (cs : list ascii) : list ascii :=
  match cs with
  | c :: cs' => if is_space c then skip_space cs' else cs
  | [] => []
  end.

(** The characters of a string, after its opening quote. *)
Fixpoint parse_chars (cs acc : list ascii) : option (string * list ascii) :=
  match cs with
  | [] => None
  | c :: cs' =>
      if Ascii.eqb c dquote then Some (text (rev acc), cs')
      else if Ascii.eqb c backslash then
        match cs' with
        | e :: cs'' =>
            if Ascii.eqb e dquote || Ascii.eqb e backslash
            then parse_chars cs'' (e :: acc)
            else None
        | [] => None
        end
      else parse_chars cs' (c :: acc)
  end.

Fixpoint parse_digits (cs : list ascii) (acc : Z) : Z * list ascii :=
  match cs with
  | c :: cs' =>
      match digit c with
      | Some d => parse_digits cs' (10 * acc + d)%Z
      | None => (acc, cs)
      end
  | [] => (acc, [])
  end.

Definition parse_literal (word : string) (v : value) (cs : list ascii)
    : option (value * list ascii) :=
  let w := chars word in
  if bool_decide (take (length w) cs = w) then Some (v, drop (length w) cs) else None.

Fixpoint parse_value (fuel : nat) (cs : list ascii) : option (value * list ascii) :=
  match fuel with
  | 0 => None
  | S fuel' =>
      match skip_space cs with
      | [] => None
      | c :: cs' =>
          if Ascii.eqb c dquote then
            '(s, rest) ← parse_chars cs' []; Some (Str s, rest)
          else if Ascii.eqb c "[" then
            match skip_space cs' with
            | "]"%char :: rest => Some (Array [], rest)
            | _ => parse_elements fuel' cs' []
            end
          else if Ascii.eqb c "{" then
            match skip_space cs' with
            | "}"%char :: rest => Some (Object [], rest)
            | _ => parse_members fuel' cs' []
            end
          else if Ascii.eqb c "-" then
            match cs' with
            | d :: _ =>
                if digit d is Some _ then
                  let '(n, rest) := parse_digits cs' 0 in Some (Number (- n), rest)
                else None
            | [] => None
            end
          else if digit c is Some _ then
            let '(n, rest) := parse_digits (c :: cs') 0 in Some (Number n, rest)
          else if Ascii.eqb c "n" then parse_literal "null" Null (c :: cs')
          else if Ascii.eqb c "t" then parse_literal "true" (Bool true) (c :: cs')
          else if Ascii.eqb c "f" then parse_literal "false" (Bool false) (c :: cs')
          else None
      end
  end
with parse_elements (fuel : nat) (cs : list ascii) (acc : list value)
    : option (value * list ascii) :=
  match fuel with
  | 0 => None
  | S fuel' =>
      '(v, cs1) ← parse_value fuel' cs;
      match skip_space cs1 with
      | ","%char :: cs2 => parse_elements fuel' cs2 (v :: acc)
      | "]"%char :: cs2 => Some (Array (rev (v :: acc)), cs2)
      | _ => None
      end
  end
with parse_members (fuel : nat) (cs : list ascii) (acc : list (string * value))
    : option (value * list ascii) :=
  match fuel with
  | 0 => None
  | S fuel' =>
      match skip_space cs with
      | q :: cs0 =>
          if Ascii.eqb q dquote then
            '(k, cs1) ← parse_chars cs0 [];
            match skip_space cs1 with
            | ":"%char :: cs2 =>
                '(v, cs3) ← parse_value fuel' cs2;
                match skip_space cs3 with
                | ","%char :: cs4 => parse_members fuel' cs4 ((k, v) :: acc)
                | "}"%char :: cs4 => Some (Object (rev ((k, v) :: acc)), cs4)
                | _ => None
                end
            | _ => None
            end
          else None
      | [] => None
      end
  end.

(** A whole document: one value, then nothing but space. *)
Definition parse (s : string) : option value :=
  let cs := chars s in
  '(v, rest) ← parse_value (2 * length cs + 2) cs;
  match skip_space rest with
  | [] => Some v
  | _ => None
  end.

(** *** From records to documents and back *)

(** The value of a field of an object; a missing field reads as
    [null], which leaves the Go field at its zero value. *)
Definition field (k : string) (kvs : list (string * value)) : value :=
  default Null (snd <$> List.find (λ kv, String.eqb kv.1 k) (rev kvs)).

Definition as_string (v : value) : option string :=
  match v with
  | Str s => Some s
  | Null => Some EmptyString
  | _ => None
  end.

Definition as_int (v : value) : option Z :=
  match v with
  | Number n => Some n
  | Null => Some 0%Z
  | _ => None
  end.

Definition as_pointer (v : value) : option (option string) :=
  match v with
  | Str s => Some (Some s)
  | Null => Some None
  | _ => None
  end.

Definition as_map {A : Type} (as_elem : value → option A) (v : value)
    : option (gmap string A) :=
  match v with
  | Object kvs =>
      l ← mapM (λ kv : string * value, a ← as_elem kv.2; Some (kv.1, a)) kvs;
      Some (list_to_map (rev l))
  | Null => Some ∅
  | _ => None
  end.

Definition as_list {A : Type} (as_elem : value → option A) (v : value)
    : option (list A) :=
  match v with
  | Array vs => mapM as_elem vs
  | Null => Some []
  | _ => None
  end.

Definition of_map {A : Type} (of_elem : A → value) (m : gmap string A) : value :=
  Object ((λ kv : string * A, (kv.1, of_elem kv.2)) <$> map_to_list m).

Definition of_pointer (p : option string) : value :=
  match p with
  | Some s => Str s
  | None => Null
  end.

Definition of_Node (n : Node) : value :=
  Object [("id", Str (Node_Id n)); ("address", Str (Node_Address n));
          ("port", Number (Node_Port n));
          ("metadata", of_map Str (Node_Metadata n))].

Definition as_Node (v : value) : option Node :=
  match v with
  | Object kvs =>
      id ← as_string (field "id" kvs);
      address ← as_string (field "address" kvs);
      port ← as_int (field "port" kvs);
      metadata ← as_map as_string (field "metadata" kvs);
      Some (mkNode id address port metadata)
  | Null => Some (mkNode EmptyString EmptyString 0 ∅)
  | _ => None
  end.

Definition of_Service (s : Service) : value :=
  Object [("name", Str (Service_Name s)); ("version", Str (Service_Version s));
          ("metadata", of_map Str (Service_Metadata s));
          ("nodes", Array (of_Node <$> Service_Nodes s))].

Definition as_Service (v : value) : option Service :=
  match v with
  | Object kvs =>
      name ← as_string (field "name" kvs);
      version ← as_string (field "version" kvs);
      metadata ← as_map as_string (field "metadata" kvs);
      nodes ← as_list as_Node (field "nodes" kvs);
      Some (mkService name version metadata nodes)
  | Null => Some (mkService EmptyString EmptyString ∅ [])
  | _ => None
  end.

Definition of_Secret (s : Secret) : value :=
  Object [("metadata",
           match Secret_Metadata s with
           | Some meta =>
               Object [("name", Str (Meta_Name meta));
                       ("labels", of_map of_pointer (Meta_Labels meta));
                       ("annotations", of_map of_pointer (Meta_Annotations meta))]
           | None => Null
           end);
          ("data", of_map Str (Secret_Data s))].

Definition as_Meta (v : value) : option (option Meta) :=
  match v with
  | Object kvs =>
      name ← as_string (field "name" kvs);
      labels ← as_map as_pointer (field "labels" kvs);
      annotations ← as_map as_pointer (field "annotations" kvs);
      Some (Some (mkMeta name labels annotations))
  | Null => Some None
  | _ => None
  end.

Definition as_Secret (v : value) : option Secret :=
  match v with
  | Object kvs =>
      meta ← as_Meta (field "metadata" kvs);
      data ← as_map as_string (field "data" kvs);
      Some (mkSecret meta data)
  | Null => Some (mkSecret None ∅)
  | _ => None
  end.

Definition Marshal (s : Service) : string + string :=
  inl (text (print (of_Service s))).

Definition Unmarshal (data : string) : option Service :=
  v ← parse data; as_Service v.

Definition Unmarshal_Secret (data : string) : option Secret :=
  v ← parse data; as_Secret v.

(** What the store puts in a notification. *)
Definition Marshal_Secret (s : Secret) : string :=
  text (print (of_Secret s)).

Definition codec : JSON :=
  {| json_Marshal := Marshal;
     json_Unmarshal := Unmarshal;
     json_Unmarshal_Secret := Unmarshal_Secret |}.

End json.

(** ** Sample data *)

Definition n1 : Node :=
  {| Node_Id := "n1"; Node_Address := "10.0.0.1"; Node_Port := 8080;
     Node_Metadata := ∅ |}.

Definition greeter : Service :=
  {| Service_Name := "greeter"; Service_Version := "1.0";
     Service_Metadata := ∅; Service_Nodes := [n1] |}.

Definition sample (name : string) : Service :=
  {| Service_Name := name; Service_Version := "1.0";
     Service_Metadata := ∅; Service_Nodes := [n1] |}.

(** The JSON of a service, for the codec above. *)
Definition json_of (s : Service) : string :=
  match json.Marshal s with
  | inl b => b
  | inr e => e
  end.

(** The record the process of [pod-1] writes when it registers the
    service [x], and the notification the store sends about a record. *)
Definition registered_x : Secret :=
  registerSecret "pod-1" (serviceName "x") (json_of (sample "x")).

Definition notification (t : EventType) (secret : Secret) : Event :=
  {| Event_Type := t; Event_Object := json.Marshal_Secret secret |}.

(** ** The statements of the specification, as definitions *)

(** What the sanitizer does to one byte, in the words of the
    specification: a byte outside the class becomes [_]. *)
Definition sanitize_byte (c : ascii) : ascii :=
  if bool_decide (c ∈ label_alphabet) then c else "_"%char.

(** The error of [GetService] for a payload that does not decode. *)
Definition unmarshal_error (name : string) : error :=
  errors_New ("could not unmarshal service '" +:+ name +:+ "' from pod annotation").

(** A record that carries the selector label of [greeter] and no payload,
    and one whose payload is not JSON. *)
Definition bare_secret : Secret :=
  {| Secret_Metadata := Some
       {| Meta_Name := "pod-0";
          Meta_Labels := {[ "micro.mu/selector-greeter" := Some "service" ]};
          Meta_Annotations := ∅ |};
     Secret_Data := ∅ |}.

Definition corrupt_secret : Secret :=
  {| Secret_Metadata := Some
       {| Meta_Name := "pod-9";
          Meta_Labels := {[ "micro.mu/selector-greeter" := Some "service" ]};
          Meta_Annotations := ∅ |};
     Secret_Data := {[ "micro.mu/service-greeter" := "{name:" ]} |}.

(** Two service records are equivalent when they have the same name and
    the same set of nodes. *)
Definition equivalent (s s' : Service) : Prop :=
  Service_Name s = Service_Name s'
  ∧ ∀ n, n ∈ Service_Nodes s ↔ n ∈ Service_Nodes s'.

Section Statements.
Context `{J : JSON}.

(** Every payload stored under [key] in a record that [labels] selects
    decodes. *)
Definition decodable (labels : gmap string string) (key : string)
    (st : gmap string Secret) : Prop :=
  ∀ id secret svcStr,
    st !! id = Some secret →
    selects labels secret = true →
    Secret_Data secret !! key = Some svcStr →
    is_Some (json_Unmarshal svcStr).

(** The service an annotation stands for: its key carries the prefix,
    its value is not null and decodes. *)
Definition service_of_annotation (kv : string * option string) : option Service :=
  if String.prefix "micro.mu/service-" kv.1
  then str ← kv.2; json_Unmarshal str
  else None.

Definition annotations_of (secret : Secret) : list (string * option string) :=
  match Secret_Metadata secret with
  | Some meta => map_to_list (Meta_Annotations meta)
  | None => []
  end.

Definition action_of (t : EventType) : option string :=
  match t with
  | Added => Some "create"
  | Deleted => Some "delete"
  | Modified => None
  end.

(** The events of a notification, in the words of the specification:
    one per annotation that stands for a service, none for a kind other
    than Add and Delete. *)
Definition events_of_notification (event : Event) : list Result :=
  match json_Unmarshal_Secret (Event_Object event), action_of (Event_Type event) with
  | Some secret, Some action =>
      mkResult action <$> omap service_of_annotation (annotations_of secret)
  | _, _ => []
  end.

(** The records left by a sequence of registrations, each made by the
    process of the given pod. *)
Definition register_all (regs : list (string * Service)) (st : gmap string Secret)
    : gmap string Secret :=
  foldl (λ st reg, secrets (world (run mem (Register reg.2) (on_pod reg.1 st)))) st regs.

End Statements.

(** ** More sample data *)

(** A record as the listing and the watcher read it, with its services in
    the annotations: one annotation is a service, one does not decode, one
    is not about a service. *)
Definition annotated_secret : Secret :=
  {| Secret_Metadata := Some
       {| Meta_Name := "pod-2";
          Meta_Labels := {[ "micro.mu/type" := Some "service" ]};
          Meta_Annotations :=
            <[ "micro.mu/service-greeter" := Some (json_of greeter) ]>
              (<[ "micro.mu/service-broken" := Some "{" ]> {[ "owner" := Some "ops" ]}) |};
     Secret_Data := ∅ |}.

(** A record with a nil annotation under the service prefix. *)
Definition nil_annotation_secret : Secret :=
  {| Secret_Metadata := Some
       {| Meta_Name := "pod-3";
          Meta_Labels := {[ "micro.mu/type" := Some "service" ]};
          Meta_Annotations := {[ "micro.mu/service-x" := None ]} |};
     Secret_Data := ∅ |}.

(** A session in which the forwarding task waits for the upstream and a
    caller is about to run [Stop] twice, then [Next]. *)
Definition two_stops : session :=
  {| next_closed := false; upstream := []; upstream_stopped := false;
     goroutines := [ {| code := [IRange]; got := [] |};
                     {| code := Stop ++ Stop ++ [INext]; got := [] |} ];
     panicked := None |}.

(** ** A client that cannot reach the control plane *)

(** Every call fails with the same transport error; the state of the
    world is a unit. *)
Definition unreachable : Handler unit :=
  {| h_getenv := λ _ _, "pod-1";
     h_create := λ _ _ w, (inr "connection refused", w);
     h_delete := λ _ w, (Some "connection refused", w);
     h_list := λ _ w, (inr "connection refused", w) |}.

(** ** What the loops of the registry read, entry by entry *)

Section Entries.
Context `{J : JSON}.

(** The payload entry of a record at the key of [svcName] either is
    missing, or decodes, or does not. *)
Definition entry_ok (svcName : string) (secret : Secret) : Prop :=
  ∀ svcStr,
    Secret_Data secret !! (dataServiceKeyPrefix +:+ svcName) = Some svcStr →
    is_Some (json_Unmarshal svcStr).

(** The service a record stands for in a lookup of [svcName]. *)
Definition entry_service (svcName : string) (secret : Secret) : option Service :=
  svcStr ← Secret_Data secret !! (dataServiceKeyPrefix +:+ svcName);
  json_Unmarshal svcStr.

(** A record [ListServices] can read without a fault: it has metadata and
    none of its annotations with the service prefix is nil. *)
Definition listable (secret : Secret) : Prop :=
  ∃ meta,
    Secret_Metadata secret = Some meta
    ∧ ∀ k, strings_HasPrefix k dataServiceKeyPrefix = true →
           Meta_Annotations meta !! k ≠ Some None.

(** The name [n] is the name of a service that an annotation of the
    record stands for. *)
Definition announces (secret : Secret) (n : string) : Prop :=
  ∃ kv svc,
    kv ∈ annotations_of secret
    ∧ service_of_annotation kv = Some svc
    ∧ Service_Name svc = n.

End Entries.

(** ** The watch session, one consumer *)

(** The schedule in which the forwarding task (goroutine 0) and one
    caller of [Next] (goroutine 1) take turns: for each event the task
    reads it, then the caller receives each of its results; at the end the
    task finds the upstream closed and runs [Stop], and the caller's last
    [Next] sees the closed channel.  [counts] is the number of results
    of each event. *)
Fixpoint deliver_schedule (counts : list nat) : list nat :=
  match counts with
  | [] => [0; 0; 0; 0; 1]
  | n :: counts' => 0 :: replicate n 1 ++ deliver_schedule counts'
  end.

(** ** client.go: the client inside a cluster *)

Module client.

Definition serviceAccountPath : string :=
  "/var/run/secrets/kubernetes.io/serviceaccount".

(** Errors of this file: the sentinel [ErrReadNamespace], the error made
    with [errors.New] in [NewClientInCluster], and the errors of the
    operating system and of the certificate loader, passed on. *)
Inductive error : Type :=
| ErrReadNamespace
| ErrNoServiceAccount
| OsError (msg : string).

(** [os.FileInfo], as far as the file looks at it. *)
Record FileInfo : Type := mkFileInfo {
  IsDir : bool
}.

(** What the file asks of its host: the environment, [os.Stat] (a file
    information or an error), [ioutil.ReadFile] (the bytes read and
    possibly an error) and [CertPoolFromFile], which belongs to another
    file of the package. *)
Record Host (CertPool : Type) : Type := mkHost {
  Getenv : string → string;
  Stat : string → FileInfo + string;
  ReadFile : string → string * option string;
  CertPoolFromFile : string → CertPool + string
}.
Arguments Getenv {CertPool} _ _.
Arguments Stat {CertPool} _ _.
Arguments ReadFile {CertPool} _ _.
Arguments CertPoolFromFile {CertPool} _ _.

(** [path.Join] of two clean elements, as the file uses it. *)
Definition path_Join (dir file : string) : string := dir +:+ "/" +:+ file.

(** [api.Options], with the root certificates of its HTTP client. *)
Record Options (CertPool : Type) : Type := mkOptions {
  Options_Host : string;
  Options_Namespace : string;
  Options_BearerToken : option string;
  Options_RootCAs : option CertPool
}.
Arguments mkOptions {CertPool} _ _ _ _.
Arguments Options_Host {CertPool} _.
Arguments Options_Namespace {CertPool} _.
Arguments Options_BearerToken {CertPool} _.
Arguments Options_RootCAs {CertPool} _.

(** A constructor that returns, or stops the process with [log.Fatal]. *)
Inductive started (A : Type) : Type :=
| Running (a : A)
| Fatal (e : error).
Arguments Running {A} a.
Arguments Fatal {A} e.

Section WithHost.
Context {CertPool : Type} (host : Host CertPool).

Definition detectNamespace : string * option error :=
  let nsPath := path_Join serviceAccountPath "namespace" in
  match Stat host nsPath with
  | inr e => (EmptyString, Some (OsError e))
  | inl s =>
      if IsDir s then (EmptyString, Some ErrReadNamespace)
      else
        match ReadFile host nsPath with
        | (ns, Some e) => (ns, Some (OsError e))
        | (ns, None) => (ns, None)
        end
  end.

Definition NewClientByHost (h : string) : Options CertPool :=
  {| Options_Host := h; Options_Namespace := "default";
     Options_BearerToken := None; Options_RootCAs := None |}.

(** [NewClientInCluster].  [os.Stat] hands back a file information
    whenever it hands back no error, so the test [s == nil] of the source
    never holds; an error of the certificate loader is the [err] passed to
    [log.Fatal]. *)
Definition NewClientInCluster : started (Options CertPool) :=
  let h := "https://" +:+ Getenv host "KUBERNETES_SERVICE_HOST"
           +:+ ":" +:+ Getenv host "KUBERNETES_SERVICE_PORT" in
  match Stat host serviceAccountPath with
  | inr e => Fatal (OsError e)
  | inl s =>
      if negb (IsDir s) then Fatal ErrNoServiceAccount
      else
        match ReadFile host (path_Join serviceAccountPath "token") with
        | (_, Some e) => Fatal (OsError e)
        | (token, None) =>
            match detectNamespace with
            | (_, Some e) => Fatal e
            | (ns, None) =>
                match CertPoolFromFile host (path_Join serviceAccountPath "ca.crt") with
                | inr e => Fatal (OsError e)
                | inl crt =>
                    Running {| Options_Host := h; Options_Namespace := ns;
                               Options_BearerToken := Some token;
                               Options_RootCAs := Some crt |}
                end
            end
        end
  end.

End WithHost.

(** A pod with its service account mounted; the certificate pool is the
    text of the certificate. *)
Definition in_pod : Host string :=
  {| Getenv := λ key,
       if String.eqb key "KUBERNETES_SERVICE_HOST" then "10.96.0.1"
       else if String.eqb key "KUBERNETES_SERVICE_PORT" then "443"
       else EmptyString;
     Stat := λ p,
       if String.eqb p serviceAccountPath then inl {| IsDir := true |}
       else if String.prefix serviceAccountPath p then inl {| IsDir := false |}
       else inr "no such file or directory";
     ReadFile := λ p,
       if String.eqb p (path_Join serviceAccountPath "namespace") then ("prod", None)
       else if String.eqb p (path_Join serviceAccountPath "token") then ("s3cr3t", None)
       else (EmptyString, Some "no such file or directory");
     CertPoolFromFile := λ p,
       if String.eqb p (path_Join serviceAccountPath "ca.crt") then inl "PEM"
       else inr "no such file or directory" |}.

End client.

(** ** The JSON codec, seen from the printer *)

(** The elements of an array and the members of an object, as [json.print]
    writes them between the brackets. *)
Fixpoint print_elements (vs : list json.value) : list ascii :=
  match vs with
  | [] => []
  | [v] => json.print v
  | v :: vs' => json.print v ++ json.chars "," ++ print_elements vs'
  end.

Fixpoint print_members (kvs : list (string * json.value)) : list ascii :=
  match kvs with
  | [] => []
  | [(k, v)] => json.quote k ++ json.chars ":" ++ json.print v
  | (k, v) :: kvs' =>
      json.quote k ++ json.chars ":" ++ json.print v ++ json.chars "," ++ print_members kvs'
  end.

(** Fuel that is enough to parse a value back. *)
Fixpoint need (v : json.value) : nat :=
  match v with
  | json.Array vs =>
      2 + (fix go (vs : list json.value) : nat :=
             match vs with
             | [] => 0
             | v :: vs' => S (need v + go vs')
             end) vs
  | json.Object kvs =>
      2 + (fix go (kvs : list (string * json.value)) : nat :=
             match kvs with
             | [] => 0
             | (_, v) :: kvs' => S (need v + go kvs')
             end) kvs
  | _ => 1
  end.

Definition need_elements (vs : list json.value) : nat :=
  foldr (λ v n, S (need v + n)) 0 vs.

Definition need_members (kvs : list (string * json.value)) : nat :=
  foldr (λ '(_, v) n, S (need v + n)) 0 kvs.

(** What follows a value does not go on with a digit. *)
Definition ends_number (cs : list ascii) : Prop :=
  match cs with
  | c :: _ => json.digit c = None
  | [] => True
  end.

(** The first character of a value: not a space, not a closing bracket. *)
Definition starts_value (cs : list ascii) : Prop :=
  match cs with
  | c :: _ => json.is_space c = false ∧ c ≠ "]"%char ∧ c ≠ "}"%char
  | [] => False
  end.

(** A value that the printer writes and the parser reads back. *)
Definition reads_back (v : json.value) : Prop :=
  starts_value (json.print v)
  ∧ (need v ≤ 2 * length (json.print v))%nat
  ∧ ∀ fuel rest,
      (need v ≤ fuel)%nat → ends_number rest →
      json.parse_value fuel (json.print v ++ rest) = Some (v, rest).

(** A codec is faithful when its decoder reads, from what its encoder
    writes for a service, a record with the same name and the same
    nodes. *)
Definition faithful `{J : JSON} : Prop :=
  ∀ s b, json_Marshal s = inl b → ∃ s', json_Unmarshal b = Some s' ∧ equivalent s s'.

(** ** Facts about the selector codec *)

Lemma in_bracket_alphabet (c : ascii) : in_bracket c = bool_decide (c ∈ label_alphabet).
Proof. destruct c as [[] [] [] [] [] [] [] []]; vm_compute; reflexivity. Qed.

Lemma labelRe_Match_byte (r : ascii) : labelRe_Match [r] = bool_decide (r ∈ label_alphabet).
Proof.
  unfold labelRe_Match. simpl. rewrite orb_false_r. apply in_bracket_alphabet.
Qed.

(** The loop fills the buffer from index [i] on and leaves what is before
    [i] untouched. *)
Lemma serviceName_loop_fills (bs : list ascii) :
  ∀ (i : nat) (aname : list ascii),
    length aname = i + length bs →
    serviceName_loop i bs aname = take i aname ++ (sanitize_byte <$> bs).
Proof.
  induction bs as [|r bs IH]; intros i aname Hlen.
  - simpl in *. rewrite app_nil_r, take_ge; [done | lia].
  - simpl in Hlen.
    assert (Hstep : ∀ c, serviceName_loop (S i) bs (<[i := c]> aname)
                         = take i aname ++ c :: (sanitize_byte <$> bs)).
    { intros c. rewrite IH by (rewrite length_insert; lia).
      rewrite (take_S_r _ _ c) by (apply list_lookup_insert_eq; lia).
      rewrite take_insert_ge by lia. by rewrite <- app_assoc. }
    cbn [serviceName_loop]. rewrite labelRe_Match_byte.
    rewrite fmap_cons.
    replace (sanitize_byte r)
      with (if bool_decide (r ∈ label_alphabet) then r else "_"%char) by done.
    destruct (bool_decide (r ∈ label_alphabet)); simpl; apply Hstep.
Qed.

Lemma serviceName_bytes (x : string) :
  String.list_ascii_of_string (serviceName x)
  = sanitize_byte <$> String.list_ascii_of_string x.
Proof.
  unfold serviceName. rewrite String.list_ascii_of_string_of_list_ascii.
  rewrite serviceName_loop_fills by (rewrite length_replicate; lia).
  by rewrite take_0.
Qed.

Lemma sanitize_byte_idemp (c : ascii) : sanitize_byte (sanitize_byte c) = sanitize_byte c.
Proof.
  unfold sanitize_byte. destruct (bool_decide (c ∈ label_alphabet)) eqn:Hc.
  - by rewrite Hc.
  - reflexivity.
Qed.

Lemma string_length_bytes (x : string) :
  String.length x = length (String.list_ascii_of_string x).
Proof. induction x as [|c x IH]; simpl; congruence. Qed.

Lemma string_bytes_inj (x y : string) :
  String.list_ascii_of_string x = String.list_ascii_of_string y → x = y.
Proof.
  intros H. rewrite <- (String.string_of_list_ascii_of_string x),
    <- (String.string_of_list_ascii_of_string y). by rewrite H.
Qed.

(** C7.  The sanitizer [serviceName] is a total function of its input; its
    output has the length of the input; byte by byte, it keeps the bytes of
    the class [-A-Za-z0-9_.] and writes [_] for every other one; and
    sanitizing twice is the same as sanitizing once. *)
Theorem serviceName_sanitize (x : string) :
  String.length (serviceName x) = String.length x
  ∧ String.list_ascii_of_string (serviceName x)
    = (λ c, if bool_decide (c ∈ label_alphabet) then c else "_"%char)
        <$> String.list_ascii_of_string x
  ∧ serviceName (serviceName x) = serviceName x.
Proof.
  split_and!.
  - rewrite !string_length_bytes, serviceName_bytes. apply length_fmap.
  - apply serviceName_bytes.
  - apply string_bytes_inj. rewrite !serviceName_bytes, <- list_fmap_compose.
    apply list_fmap_ext. intros _ c _. apply sanitize_byte_idemp.
Qed.

(** ** Facts about the registry *)

Section RegistryFacts.
Context `{J : JSON}.

(** [GetService] makes one call and computes its answer from the reply. *)
Lemma GetService_value {W : Type} (h : Handler W) (w : W) (name : string) :
  value (run h (GetService name) w)
  = match (h_list h {[ svcSelectorPrefix +:+ serviceName name := svcSelectorValue ]} w).1 with
    | inr e => Err (ClientError e)
    | inl l =>
        if Nat.eqb (length (Items l)) 0 then Err ErrNotFound
        else GetService_loop name (serviceName name) (Items l) []
    end.
Proof.
  unfold GetService, value. cbn.
  destruct (h_list h _ w) as [[l|e] w1]; cbn; [|done].
  by destruct (Nat.eqb (length (Items l)) 0).
Qed.

Lemma GetService_loop_not_ErrNotFound (name svcName : string) (items : list Secret) :
  ∀ svcs, GetService_loop name svcName items svcs ≠ Err ErrNotFound.
Proof.
  induction items as [|secret items IH]; intros svcs; cbn; [done|].
  destruct (Secret_Data secret !! _) as [svcStr|]; [|apply IH].
  destruct (json_Unmarshal svcStr); [apply IH | done].
Qed.

(** A record without the payload entry is passed over. *)
Lemma GetService_loop_skips (name svcName : string) (items : list Secret) :
  ∀ svcs,
    Forall (λ secret, Secret_Data secret !! (dataServiceKeyPrefix +:+ svcName) = None) items →
    GetService_loop name svcName items svcs = Ok svcs.
Proof.
  induction items as [|secret items IH]; intros svcs Hall; cbn; [done|].
  inversion Hall as [|? ? Hnone Hrest]; subst. rewrite Hnone. by apply IH.
Qed.

(** One entry that does not decode fails the loop, wherever it is. *)
Lemma GetService_loop_fails (name svcName : string) (items : list Secret)
    (secret : Secret) (svcStr : string) :
  secret ∈ items →
  Secret_Data secret !! (dataServiceKeyPrefix +:+ svcName) = Some svcStr →
  json_Unmarshal svcStr = None →
  ∀ svcs, GetService_loop name svcName items svcs = Err (unmarshal_error name).
Proof.
  intros Hin Hdata Hbad. induction items as [|secret' items IH]; intros svcs.
  - by apply elem_of_nil in Hin.
  - cbn. apply elem_of_cons in Hin as [<-|Hin].
    + by rewrite Hdata, Hbad.
    + destruct (Secret_Data secret' !! _) as [str|]; [|by apply IH].
      destruct (json_Unmarshal str); [by apply IH | done].
Qed.

(** When every entry decodes, the loop returns the decoded entries. *)
Lemma GetService_loop_decodes (name svcName : string) (items : list Secret) :
  Forall (λ secret, ∀ svcStr,
            Secret_Data secret !! (dataServiceKeyPrefix +:+ svcName) = Some svcStr →
            is_Some (json_Unmarshal svcStr)) items →
  ∀ svcs, ∃ svcs',
    GetService_loop name svcName items svcs = Ok svcs'
    ∧ (∀ r, r ∈ svcs → r ∈ svcs')
    ∧ ∀ secret svcStr r,
        secret ∈ items →
        Secret_Data secret !! (dataServiceKeyPrefix +:+ svcName) = Some svcStr →
        json_Unmarshal svcStr = Some r → r ∈ svcs'.
Proof.
  induction 1 as [|secret items Hhead _ IH]; intros svcs.
  - exists svcs. split_and!; [done | done |]. intros ? ? ? Hin. by apply elem_of_nil in Hin.
  - cbn. destruct (Secret_Data secret !! _) as [str|] eqn:Hdata.
    + destruct (Hhead str eq_refl) as [svc Hsvc]. rewrite Hsvc.
      destruct (IH (svcs ++ [svc])) as (svcs' & -> & Hkeep & Hnew).
      exists svcs'. split_and!; [done | |].
      * intros r Hr. apply Hkeep. set_solver.
      * intros secret' str' r Hin Hd Hu. apply elem_of_cons in Hin as [->|Hin].
        -- apply Hkeep. rewrite Hdata in Hd. injection Hd as <-.
           rewrite Hsvc in Hu. injection Hu as <-. set_solver.
        -- by eapply Hnew.
    + destruct (IH svcs) as (svcs' & -> & Hkeep & Hnew).
      exists svcs'. split_and!; [done | done |].
      intros secret' str' r Hin Hd Hu. apply elem_of_cons in Hin as [->|Hin].
      * congruence.
      * by eapply Hnew.
Qed.

Lemma length_zero_nil {A : Type} (l : list A) : Nat.eqb (length l) 0 = true ↔ l = [].
Proof. destruct l; cbn; split; intros; done. Qed.

Lemma nodes_nonempty (s : Service) :
  Service_Nodes s ≠ [] → Nat.eqb (length (Service_Nodes s)) 0 = false.
Proof. destruct (Service_Nodes s); cbn; done. Qed.

(** C8.  With zero nodes, [Register] returns the error "you must register
    at least one node" and [Deregister] the error "you must deregister at
    least one node" (the invalid-argument errors of the specification);
    both return at once, so that against any store no call is made and
    the store is left as it was. *)
Theorem zero_nodes_rejected (s : Service) :
  Service_Nodes s = [] →
  Register s = Ret (Some (errors_New "you must register at least one node"))
  ∧ Deregister s = Ret (Some (errors_New "you must deregister at least one node"))
  ∧ ∀ (W : Type) (h : Handler W) (w : W),
      calls (run h (Register s) w) = [] ∧ world (run h (Register s) w) = w
      ∧ calls (run h (Deregister s) w) = [] ∧ world (run h (Deregister s) w) = w.
Proof.
  intros Hnodes. unfold Register, Deregister. rewrite Hnodes. cbn.
  split_and!; done.
Qed.

Lemma Deregister_calls {W : Type} (h : Handler W) (w : W) (s : Service) :
  Service_Nodes s ≠ [] →
  calls (run h (Deregister s) w) = [CallDelete (h_getenv h "HOSTNAME" w)].
Proof.
  intros Hnodes. unfold Deregister, calls. rewrite (nodes_nonempty s Hnodes). cbn.
  destruct (h_delete h _ w) as [[e|] w1]; by cbn.
Qed.

Lemma Register_mem (pod b : string) (st : gmap string Secret) (s : Service) :
  Service_Nodes s ≠ [] →
  json_Marshal s = inl b →
  run mem (Register s) (on_pod pod st)
  = (None,
     on_pod pod (<[ pod := registerSecret pod (serviceName (Service_Name s)) b ]> st),
     [CallCreate pod (registerSecret pod (serviceName (Service_Name s)) b)]).
Proof.
  intros Hnodes Hb. unfold Register. rewrite (nodes_nonempty s Hnodes). cbn.
  rewrite Hb. cbn. done.
Qed.

(** C10.  [Deregister] looks at nothing of its argument but whether it
    has nodes: for two services with nodes it is the same program, whose
    single store call deletes the record named by [HOSTNAME]; so after
    one process has registered [s1], its [Deregister s2] removes the
    record of [s1]. *)
Theorem Deregister_ignores_service (s1 s2 : Service) (pod b : string)
    (st : gmap string Secret) :
  Service_Nodes s1 ≠ [] →
  Service_Nodes s2 ≠ [] →
  json_Marshal s1 = inl b →
  Deregister s1 = Deregister s2
  ∧ (∀ (W : Type) (h : Handler W) (w : W),
       calls (run h (Deregister s1) w) = [CallDelete (h_getenv h "HOSTNAME" w)]
       ∧ calls (run h (Deregister s2) w) = [CallDelete (h_getenv h "HOSTNAME" w)])
  ∧ secrets (world (run mem (Register s1) (on_pod pod st))) !! pod
    = Some (registerSecret pod (serviceName (Service_Name s1)) b)
  ∧ secrets (world (run mem (Deregister s2)
                      (world (run mem (Register s1) (on_pod pod st))))) !! pod
    = None.
Proof.
  intros H1 H2 Hb. split_and!.
  - unfold Deregister. by rewrite (nodes_nonempty s1 H1), (nodes_nonempty s2 H2).
  - intros W h w. split; by apply Deregister_calls.
  - rewrite (Register_mem pod b st s1 H1 Hb). cbn. apply lookup_insert_eq.
  - rewrite (Register_mem pod b st s1 H1 Hb). unfold Deregister.
    rewrite (nodes_nonempty s2 H2). cbn. unfold mem_delete, mem_getenv. cbn.
    rewrite lookup_insert_eq. cbn. apply lookup_delete_eq.
Qed.


(** C6.  When the payload entry of one of the records the store returns
    does not decode, [GetService] fails as a whole with the error
    "could not unmarshal service '<name>' from pod annotation", whatever
    the other records hold: no list is returned.  The loops of
    [ListServices] and of the watcher pass over such an entry and go
    on. *)
Theorem GetService_decode_failure {W : Type} (h : Handler W) (w : W) (name : string)
    (l : SecretList) (secret : Secret) (svcStr : string) :
  (h_list h {[ svcSelectorPrefix +:+ serviceName name := svcSelectorValue ]} w).1 = inl l →
  secret ∈ Items l →
  Secret_Data secret !! (dataServiceKeyPrefix +:+ serviceName name) = Some svcStr →
  json_Unmarshal svcStr = None →
  value (run h (GetService name) w)
  = Err (errors_New ("could not unmarshal service '" +:+ name +:+ "' from pod annotation"))
  ∧ (∀ k kvs svcs,
       ListServices_annotations ((k, Some svcStr) :: kvs) svcs
       = ListServices_annotations kvs svcs)
  ∧ (∀ k kvs action results,
       buildSecretResults_loop ((k, Some svcStr) :: kvs) action results
       = buildSecretResults_loop kvs action results).
Proof.
  intros Hl Hin Hdata Hbad. split_and!.
  - rewrite GetService_value, Hl.
    destruct (Nat.eqb (length (Items l)) 0) eqn:Hlen.
    + apply length_zero_nil in Hlen. rewrite Hlen in Hin. by apply elem_of_nil in Hin.
    + by eapply GetService_loop_fails.
  - intros k kvs svcs. cbn. rewrite Hbad. by destruct (negb _).
  - intros k kvs action results. cbn. rewrite Hbad. by destruct (negb _).
Qed.

Lemma decodable_empty (labels : gmap string string) (key : string) :
  decodable labels key ∅.
Proof. intros id secret svcStr Hid. by rewrite lookup_empty in Hid. Qed.

Lemma decodable_insert (labels : gmap string string) (key id : string)
    (secret : Secret) (st : gmap string Secret) :
  (∀ svcStr, Secret_Data secret !! key = Some svcStr → is_Some (json_Unmarshal svcStr)) →
  decodable labels key st →
  decodable labels key (<[ id := secret ]> st).
Proof.
  intros Hsecret Hst id' secret' svcStr Hid Hsel Hdata.
  destruct (decide (id = id')) as [<-|Hne].
  - rewrite lookup_insert_eq in Hid. injection Hid as <-. by apply Hsecret.
  - rewrite lookup_insert_ne in Hid by done. by eapply Hst.
Qed.

Lemma decodable_delete (labels : gmap string string) (key id : string)
    (st : gmap string Secret) :
  decodable labels key st → decodable labels key (delete id st).
Proof.
  intros Hst id' secret' svcStr Hid. apply lookup_delete_Some in Hid as [_ Hid].
  by eapply Hst.
Qed.

Lemma type_label_ne_selector (svcName : string) :
  labelTypeKey ≠ svcSelectorPrefix +:+ svcName.
Proof. unfold labelTypeKey, svcSelectorPrefix. cbn. intros H. discriminate H. Qed.

(** The record [Register] writes carries the selector label
    [GetService] asks for. *)
Lemma selects_registerSecret (podName svcName svc : string) :
  selects {[ svcSelectorPrefix +:+ svcName := svcSelectorValue ]}
          (registerSecret podName svcName svc) = true.
Proof.
  unfold selects. cbn [Secret_Metadata registerSecret Meta_Labels].
  rewrite map_to_list_singleton. cbn [forallb fst snd]. rewrite andb_true_r.
  apply bool_decide_eq_true.
  rewrite lookup_insert_ne by apply type_label_ne_selector.
  apply lookup_singleton_eq.
Qed.

Lemma mem_list_items (labels : gmap string string) (w : World) (secret : Secret) :
  secret ∈ Items (match (mem_list labels w).1 with inl l => l | inr _ => mkSecretList [] end)
  ↔ (∃ id, secrets w !! id = Some secret) ∧ selects labels secret = true.
Proof.
  cbn. rewrite list_elem_of_In, filter_In, <- list_elem_of_In, list_elem_of_fmap.
  split.
  - intros [([id secret'] & -> & Hin) Hsel]. apply elem_of_map_to_list in Hin. eauto.
  - intros [[id Hid] Hsel]. split; [|done].
    exists (id, secret). split; [done|]. by apply elem_of_map_to_list.
Qed.


End RegistryFacts.

(** ** Facts about listing and watching *)

Section WatchFacts.
Context `{J : JSON}.

Lemma buildSecretResults_loop_omap (kvs : list (string * option string)) (action : string) :
  ∀ results,
    buildSecretResults_loop kvs action results
    = results ++ (mkResult action <$> omap service_of_annotation kvs).
Proof.
  induction kvs as [|[ak av] kvs IH]; intros results; cbn.
  - by rewrite app_nil_r.
  - unfold service_of_annotation at 1, strings_HasPrefix, dataServiceKeyPrefix. cbn [fst snd].
    destruct (String.prefix "micro.mu/service-" ak); cbn; [|apply IH].
    destruct av as [str|]; cbn; [|apply IH].
    destruct (json_Unmarshal str) as [svc|]; cbn; [|apply IH].
    rewrite IH. by rewrite <- app_assoc.
Qed.

Lemma buildSecretResults_omap (secret : Secret) (action : string) :
  buildSecretResults secret action
  = mkResult action <$> omap service_of_annotation (annotations_of secret).
Proof.
  unfold buildSecretResults, annotations_of.
  destruct (Secret_Metadata secret); [|done].
  by rewrite buildSecretResults_loop_omap.
Qed.

(** C5.  The results [handleEvent] sends for a notification are those
    the specification describes: for the kinds Add and Delete, with the
    actions "create" and "delete", one result per annotation of the
    decoded object whose key carries the prefix "micro.mu/service-",
    whose value is not null and decodes as a service, the other
    annotations being passed over; for the kind Modify, none. *)
Theorem handleEvent_events (event : Event) :
  handleEvent event = events_of_notification event
  ∧ ∀ object, handleEvent {| Event_Type := Modified; Event_Object := object |} = [].
Proof.
  split.
  - unfold handleEvent, events_of_notification.
    destruct (json_Unmarshal_Secret (Event_Object event)) as [secret|]; [|done].
    destruct (Event_Type event); cbn; [| done |]; apply buildSecretResults_omap.
  - intros object. unfold handleEvent. cbn.
    by destruct (json_Unmarshal_Secret object).
Qed.

(** What [Register] leaves in the store: nothing new, or the record of
    the pod with the JSON of the service. *)
Lemma Register_mem_secrets (pod : string) (s : Service) (st : gmap string Secret) :
  secrets (world (run mem (Register s) (on_pod pod st))) = st
  ∨ ∃ svc, json_Marshal s = inl svc
           ∧ secrets (world (run mem (Register s) (on_pod pod st)))
             = <[ pod := registerSecret pod (serviceName (Service_Name s)) svc ]> st.
Proof.
  unfold Register. destruct (Nat.eqb (length (Service_Nodes s)) 0); [by left|].
  cbn. destruct (json_Marshal s) as [svc|e]; cbn; [|by left].
  right. by exists svc.
Qed.

(** When what [json.Marshal] writes can be read back, the stores the
    registry builds keep all their payloads decodable. *)
Lemma register_all_decodable (labels : gmap string string) (key : string)
    (regs : list (string * Service)) :
  (∀ s b, json_Marshal s = inl b → is_Some (json_Unmarshal b)) →
  ∀ st, decodable labels key st → decodable labels key (register_all regs st).
Proof.
  intros Hcodec. induction regs as [|[pod s] regs IH]; intros st Hst; [done|].
  cbn. apply IH. cbn.
  destruct (Register_mem_secrets pod s st) as [->|(svc & Hsvc & ->)]; [done|].
  apply decodable_insert; [|done].
  intros svcStr Hdata. cbn in Hdata.
  apply lookup_singleton_Some in Hdata as [_ <-]. by eapply Hcodec.
Qed.

(** Every record of such a store has metadata and no annotation. *)
Lemma register_all_no_annotations (regs : list (string * Service)) :
  ∀ st,
    map_Forall (λ _ secret, ∃ meta, Secret_Metadata secret = Some meta
                                    ∧ Meta_Annotations meta = ∅) st →
    map_Forall (λ _ secret, ∃ meta, Secret_Metadata secret = Some meta
                                    ∧ Meta_Annotations meta = ∅) (register_all regs st).
Proof.
  induction regs as [|[pod s] regs IH]; intros st Hst; [done|].
  cbn. apply IH. cbn.
  destruct (Register_mem_secrets pod s st) as [->|(svc & _ & ->)]; [done|].
  apply map_Forall_insert_2; [|done]. by eexists.
Qed.

Lemma ListServices_loop_no_annotations (items : list Secret) (svcs : gmap string bool) :
  Forall (λ secret, ∃ meta, Secret_Metadata secret = Some meta
                            ∧ Meta_Annotations meta = ∅) items →
  ListServices_loop items svcs = Returns svcs.
Proof.
  induction 1 as [|secret items (meta & Hmeta & Hann) _ IH]; cbn; [done|].
  rewrite Hmeta, Hann, map_to_list_empty. cbn. apply IH.
Qed.

(** C2, on the code.  [Register] puts the service in the payload
    ([Data]) of the record and leaves its annotations empty, while
    [ListServices] reads the annotations only: whatever services were
    registered, by whatever pods, on a store that starts empty,
    [ListServices] returns the empty list. *)
Theorem ListServices_after_Register (regs : list (string * Service)) (pod : string) :
  value (run mem ListServices (on_pod pod (register_all regs ∅))) = Returns (Ok []).
Proof.
  unfold ListServices, value. cbn.
  rewrite ListServices_loop_no_annotations; [done|].
  apply Forall_forall. intros secret Hin.
  apply list_elem_of_In, filter_In in Hin as [Hin _].
  apply list_elem_of_In, list_elem_of_fmap in Hin as ([id secret'] & -> & Hin).
  apply elem_of_map_to_list in Hin.
  by apply (register_all_no_annotations regs ∅ (map_Forall_empty _) id secret').
Qed.

(** The second [Stop] of a sequence finds the channel closed: its
    [select] receives and it returns without closing again. *)
Lemma Stop_on_closed_channel (s : session) (i : nat) (g : goroutine) (rest : list instr) :
  panicked s = None →
  next_closed s = true →
  goroutines s !! i = Some g →
  code g = ISelect :: IClose :: rest →
  step i s
  = Some (set_goroutines s (<[ i := {| code := rest; got := got g |} ]> (goroutines s))).
Proof.
  intros Hp Hc Hg Hcode. unfold step. rewrite Hp, Hg. cbn. by rewrite Hcode, Hc.
Qed.

(** On a closed channel [Next] returns the error "result chan closed". *)
Lemma Next_on_closed_channel (s : session) (i : nat) (g : goroutine) (rest : list instr) :
  panicked s = None →
  next_closed s = true →
  goroutines s !! i = Some g →
  code g = INext :: rest →
  step i s
  = Some (set_goroutines s
            (<[ i := {| code := rest;
                        got := got g ++ [Err (errors_New "result chan closed")] |} ]>
               (goroutines s))).
Proof.
  intros Hp Hc Hg Hcode. unfold step. rewrite Hp, Hg. cbn. by rewrite Hcode, Hc.
Qed.

(** C4, on the code.  The upstream closes while a caller runs [Stop]:
    the forwarding task leaves its loop and runs [Stop] too.  Both
    evaluate their [select] while the channel is still open and nobody
    sends, both take the default branch, and both close: the second
    [close] panics. *)
Theorem Stop_race_double_close :
  panicked <$> exec [0; 0; 1; 0; 1; 0; 1] (new_session [] [Stop])
  = Some (Some "close of closed channel").
Proof. reflexivity. Qed.

(** Run one after the other by one caller, two [Stop] close once. *)
Lemma Stop_twice_in_sequence :
  (λ s, (next_closed s, panicked s, code <$> goroutines s))
    <$> exec [0; 0; 0; 0; 1; 1; 1; 1] (new_session [] [Stop ++ Stop])
  = Some (true, None, [[]; []]).
Proof. reflexivity. Qed.

Lemma selector_key_inj (x y : string) :
  svcSelectorPrefix +:+ x = svcSelectorPrefix +:+ y → x = y.
Proof. unfold svcSelectorPrefix. cbn. by intros [=]. Qed.

(** The selector of a watch filtered to [x] selects the record of a
    service [y] exactly when the two names sanitize to the same token. *)
Lemma newWatcher_selector_selects (x y podName svc : string) :
  x ≠ EmptyString →
  selects (newWatcher_selector x) (registerSecret podName (serviceName y) svc) = true
  ↔ serviceName x = serviceName y.
Proof.
  intros Hx. unfold newWatcher_selector.
  destruct x as [|c x]; [done|]. cbn [String.length Nat.ltb Nat.leb].
  unfold selects. cbn [Secret_Metadata registerSecret Meta_Labels].
  rewrite map_to_list_singleton. cbn [forallb fst snd]. rewrite andb_true_r.
  rewrite bool_decide_eq_true.
  rewrite lookup_insert_ne by apply type_label_ne_selector.
  rewrite lookup_singleton_Some. split.
  - intros [Hkey _]. symmetry. by apply selector_key_inj.
  - intros ->. done.
Qed.

End WatchFacts.

(** C3, on the code.  The record [Register] writes has no annotation, and
    the watcher builds its results from the annotations only: a
    notification about such a record, of whatever kind, yields no result.
    With the record the process of [pod-1] writes for the service [x]: on
    the notifications of its creation and of its deletion the forwarding
    task sends nothing, then closes the channel, and the caller's [Next]
    returns the error of the closed channel instead of an event. *)
Theorem Register_record_yields_no_event :
  (∀ (J : JSON) (podName svcName svc action : string),
     buildSecretResults (registerSecret podName svcName svc) action = [])
  ∧ calls (run mem (Register (J := json.codec) (sample "x")) (on_pod "pod-1" ∅))
    = [CallCreate "pod-1" registered_x]
  ∧ handleEvent (J := json.codec) (notification Added registered_x) = []
  ∧ handleEvent (J := json.codec) (notification Deleted registered_x) = []
  ∧ (λ s, (got <$> goroutines s))
      <$> exec (J := json.codec) [0; 0; 0; 0; 0; 0; 1]
            (new_session [notification Added registered_x;
                          notification Deleted registered_x] [Next])
    = Some [[]; [Err (errors_New "result chan closed")]].
Proof.
  split_and!.
  - intros J podName svcName svc action. unfold buildSecretResults. cbn.
    by rewrite map_to_list_empty.
  - vm_compute. reflexivity.
  - vm_compute. reflexivity.
  - vm_compute. reflexivity.
  - vm_compute. reflexivity.
Qed.

(** ** The theorems at work on sample data *)

Lemma zero_nodes_rejected_witness :
  Service_Nodes (named "x") = []
  ∧ Register (J := json.codec) (named "x")
    = Ret (Some (errors_New "you must register at least one node"))
  ∧ Deregister (named "x")
    = Ret (Some (errors_New "you must deregister at least one node"))
  ∧ calls (run mem (Register (J := json.codec) (named "x")) (on_pod "pod-1" ∅)) = []
  ∧ calls (run mem (Deregister (named "x")) (on_pod "pod-1" ∅)) = [].
Proof.
  assert (Hnodes : Service_Nodes (named "x") = []) by reflexivity.
  destruct (zero_nodes_rejected (J := json.codec) (named "x") Hnodes) as (HR & HD & Hcalls).
  destruct (Hcalls World mem (on_pod "pod-1" ∅)) as (HcR & _ & HcD & _).
  split_and!; assumption.
Defined.

Lemma Deregister_ignores_service_witness :
  Service_Nodes greeter ≠ []
  ∧ Service_Nodes (sample "other") ≠ []
  ∧ json_Marshal (JSON := json.codec) greeter = inl (json_of greeter)
  ∧ Deregister greeter = Deregister (sample "other")
  ∧ secrets (world (run mem (Deregister (sample "other"))
                      (world (run mem (Register (J := json.codec) greeter)
                                (on_pod "pod-1" ∅))))) !! "pod-1"
    = None.
Proof.
  assert (H1 : Service_Nodes greeter ≠ []) by discriminate.
  assert (H2 : Service_Nodes (sample "other") ≠ []) by discriminate.
  assert (Hb : json_Marshal (JSON := json.codec) greeter = inl (json_of greeter))
    by reflexivity.
  destruct (Deregister_ignores_service (J := json.codec) greeter (sample "other")
              "pod-1" (json_of greeter) ∅ H1 H2 Hb) as (Hsame & _ & _ & Hgone).
  split_and!; assumption.
Defined.


Lemma GetService_decode_failure_witness :
  (h_list mem {[ svcSelectorPrefix +:+ serviceName "greeter" := svcSelectorValue ]}
     (on_pod "pod-1"
        (<[ "pod-9" := corrupt_secret ]>
           (<[ "pod-0" := registerSecret "pod-0" "greeter" (json_of greeter) ]> ∅)))).1
  = inl {| Items := [corrupt_secret; registerSecret "pod-0" "greeter" (json_of greeter)] |}
  ∧ corrupt_secret
    ∈ [corrupt_secret; registerSecret "pod-0" "greeter" (json_of greeter)]
  ∧ Secret_Data corrupt_secret !! (dataServiceKeyPrefix +:+ serviceName "greeter")
    = Some "{name:"
  ∧ json_Unmarshal (JSON := json.codec) "{name:" = None
  ∧ value (run mem (GetService (J := json.codec) "greeter")
             (on_pod "pod-1"
                (<[ "pod-9" := corrupt_secret ]>
                   (<[ "pod-0" := registerSecret "pod-0" "greeter" (json_of greeter) ]> ∅))))
    = Err (errors_New "could not unmarshal service 'greeter' from pod annotation").
Proof.
  assert (Hl : (h_list mem {[ svcSelectorPrefix +:+ serviceName "greeter" := svcSelectorValue ]}
     (on_pod "pod-1"
        (<[ "pod-9" := corrupt_secret ]>
           (<[ "pod-0" := registerSecret "pod-0" "greeter" (json_of greeter) ]> ∅)))).1
  = inl {| Items := [corrupt_secret; registerSecret "pod-0" "greeter" (json_of greeter)] |})
    by (vm_compute; reflexivity).
  assert (Hin : corrupt_secret
    ∈ Items {| Items := [corrupt_secret; registerSecret "pod-0" "greeter" (json_of greeter)] |}).
  { cbn [Items]. apply list_elem_of_here. }
  assert (Hdata : Secret_Data corrupt_secret !! (dataServiceKeyPrefix +:+ serviceName "greeter")
                  = Some "{name:") by (vm_compute; reflexivity).
  assert (Hbad : json_Unmarshal (JSON := json.codec) "{name:" = None)
    by (vm_compute; reflexivity).
  destruct (GetService_decode_failure (J := json.codec) mem _ "greeter" _ _ _
              Hl Hin Hdata Hbad) as (Hfail & _ & _).
  split_and!; assumption.
Defined.

(** The scenario of the specification: register [greeter] with its node,
    look it up, list, deregister, look it up again.  The lookup returns
    the record and, after the deregistration, [ErrNotFound]; the listing
    returns nothing. *)
Example greeter_scenario :
  let w1 := world (run mem (Register (J := json.codec) greeter) (on_pod "pod-1" ∅)) in
  let w2 := world (run mem (Deregister greeter) w1) in
  value (run mem (GetService (J := json.codec) "greeter") w1) = Ok [greeter]
  ∧ value (run mem (ListServices (J := json.codec)) w1) = Returns (Ok [])
  ∧ value (run mem (Deregister greeter) w1) = None
  ∧ value (run mem (GetService (J := json.codec) "greeter") w2) = Err ErrNotFound.
Proof. vm_compute. split_and!; reflexivity. Qed.

(** Two names that differ and sanitize to the same token. *)
Example serviceName_collision :
  serviceName "go micro" = serviceName "go_micro" ∧ "go micro" ≠ "go_micro".
Proof. split; [vm_compute; reflexivity | discriminate]. Qed.

(** ** More about the selector codec *)

Lemma sanitize_byte_valid (c : ascii) : sanitize_byte c ∈ label_alphabet.
Proof.
  unfold sanitize_byte. destruct (bool_decide (c ∈ label_alphabet)) eqn:Hc.
  - by apply bool_decide_eq_true in Hc.
  - apply (bool_decide_unpack _). vm_compute. exact I.
Qed.

Lemma sanitize_byte_fixed (c : ascii) : sanitize_byte c = c ↔ c ∈ label_alphabet.
Proof.
  split.
  - intros <-. apply sanitize_byte_valid.
  - intros Hc. unfold sanitize_byte. by rewrite bool_decide_eq_true_2.
Qed.

Lemma string_bytes_app (a b : string) :
  String.list_ascii_of_string (a +:+ b)
  = String.list_ascii_of_string a ++ String.list_ascii_of_string b.
Proof.
  induction a as [|c a IH]; [done|].
  change (String c a +:+ b) with (String c (a +:+ b)). cbn. f_equal. exact IH.
Qed.

Lemma serviceName_sanitize_twice (x : string) :
  serviceName (serviceName x) = serviceName x.
Proof.
  apply string_bytes_inj. rewrite !serviceName_bytes, <- list_fmap_compose.
  apply list_fmap_ext. intros _ c _. apply sanitize_byte_idemp.
Qed.

Lemma serviceName_bytes_valid (x : string) :
  Forall (λ c, c ∈ label_alphabet) (String.list_ascii_of_string (serviceName x)).
Proof.
  rewrite serviceName_bytes. apply Forall_fmap, Forall_forall.
  intros c _. apply sanitize_byte_valid.
Qed.

Lemma serviceName_fixed (x : string) :
  serviceName x = x
  ↔ Forall (λ c, c ∈ label_alphabet) (String.list_ascii_of_string x).
Proof.
  split.
  - intros Hx. rewrite <- Hx at 1. apply serviceName_bytes_valid.
  - intros Hall. apply string_bytes_inj. rewrite serviceName_bytes.
    induction Hall as [|c cs Hc _ IH]; cbn; [done|].
    rewrite IH. f_equal. by apply sanitize_byte_fixed.
Qed.

(** X1.  Every byte of a sanitized name is a byte of the class
    [-A-Za-z0-9_.], that is, a byte [labelRe] matches: the sanitizer never
    writes a byte it would itself replace. *)
Theorem serviceName_valid (x : string) :
  Forall (λ c, labelRe_Match [c] = true ∧ c ∈ label_alphabet)
         (String.list_ascii_of_string (serviceName x)).
Proof.
  eapply Forall_impl; [apply serviceName_bytes_valid|].
  intros c Hc. split; [|done]. rewrite labelRe_Match_byte. by apply bool_decide_eq_true.
Qed.

(** X2.  The sanitizer leaves a name unchanged exactly when all the bytes
    of the name are in the class. *)
Theorem serviceName_fixed_iff (x : string) :
  serviceName x = x
  ↔ Forall (λ c, c ∈ label_alphabet) (String.list_ascii_of_string x).
Proof. apply serviceName_fixed. Qed.

(** X3.  Sanitizing is done byte by byte: the token of a concatenation is
    the concatenation of the tokens. *)
Theorem serviceName_app (a b : string) :
  serviceName (a +:+ b) = serviceName a +:+ serviceName b.
Proof.
  apply string_bytes_inj.
  by rewrite string_bytes_app, !serviceName_bytes, string_bytes_app, fmap_app.
Qed.

(** X4.  The sanitizer is not injective: a name with a byte outside the
    class and its own token are two different names with the same
    token. *)
Theorem serviceName_collides (x : string) :
  ¬ Forall (λ c, c ∈ label_alphabet) (String.list_ascii_of_string x) →
  serviceName x ≠ x ∧ serviceName (serviceName x) = serviceName x.
Proof.
  intros Hbad. split.
  - intros Hx. by apply Hbad, serviceName_fixed.
  - apply serviceName_sanitize_twice.
Qed.

Lemma serviceName_collides_witness :
  ¬ Forall (λ c, c ∈ label_alphabet) (String.list_ascii_of_string "go micro")
  ∧ serviceName "go micro" ≠ "go micro"
  ∧ serviceName (serviceName "go micro") = serviceName "go micro".
Proof.
  assert (Hbad : ¬ Forall (λ c, c ∈ label_alphabet)
                   (String.list_ascii_of_string "go micro")).
  { intros Hall. apply Forall_forall with (x := " "%char) in Hall.
    - pose proof (in_bracket_alphabet " "%char) as E.
      rewrite (bool_decide_eq_true_2 _ Hall) in E. vm_compute in E. discriminate E.
    - apply (bool_decide_unpack _). vm_compute. exact I. }
  split; [exact Hbad | exact (serviceName_collides "go micro" Hbad)].
Defined.

(** ** More about [Register] and [Deregister] *)

Section RegisterFacts.
Context `{J : JSON}.

Lemma Register_run {W : Type} (h : Handler W) (w : W) (s : Service) (svc : string) :
  Service_Nodes s ≠ [] →
  json_Marshal s = inl svc →
  run h (Register s) w
  = let pod := h_getenv h "HOSTNAME" w in
    let secret := registerSecret pod (serviceName (Service_Name s)) svc in
    (match (h_create h pod secret w).1 with
     | inl _ => None
     | inr e => Some (ClientError e)
     end,
     (h_create h pod secret w).2,
     [CallCreate pod secret]).
Proof.
  intros Hnodes Hsvc. unfold Register. rewrite (nodes_nonempty s Hnodes). cbn.
  rewrite Hsvc. cbn. by destruct (h_create h _ _ w) as [[?|?] ?].
Qed.

Lemma Register_calls_cases {W : Type} (h : Handler W) (w : W) (s : Service) :
  calls (run h (Register s) w) = []
  ∨ ∃ svc, Service_Nodes s ≠ [] ∧ json_Marshal s = inl svc
           ∧ calls (run h (Register s) w)
             = [CallCreate (h_getenv h "HOSTNAME" w)
                  (registerSecret (h_getenv h "HOSTNAME" w)
                     (serviceName (Service_Name s)) svc)].
Proof.
  destruct (Service_Nodes s) as [|n ns] eqn:Hnodes.
  - left. unfold Register. by rewrite Hnodes.
  - destruct (json_Marshal s) as [svc|e] eqn:Hsvc.
    + right. exists svc. split_and!; [done | done |].
      rewrite (Register_run h w s svc); [done | by rewrite Hnodes | done].
    + left. unfold Register. rewrite Hnodes. cbn. by rewrite Hsvc.
Qed.

(** X5.  Whatever the store, every call [Register] makes is its only
    call: a create named by [HOSTNAME], of a record named by [HOSTNAME]
    that has exactly two labels ([micro.mu/type] and the selector of the
    sanitized name, both with the value "service"), no annotation, and
    exactly one payload entry, the JSON of the service under the key
    "micro.mu/service-" followed by the sanitized name. *)
Theorem Register_record_shape {W : Type} (h : Handler W) (w : W) (s : Service)
    (c : store_call) :
  c ∈ calls (run h (Register s) w) →
  ∃ svc secret meta,
    calls (run h (Register s) w) = [c]
    ∧ c = CallCreate (h_getenv h "HOSTNAME" w) secret
    ∧ json_Marshal s = inl svc
    ∧ Secret_Metadata secret = Some meta
    ∧ Meta_Name meta = h_getenv h "HOSTNAME" w
    ∧ size (Meta_Labels meta) = 2
    ∧ Meta_Labels meta !! "micro.mu/type" = Some (Some "service")
    ∧ Meta_Labels meta !! ("micro.mu/selector-" +:+ serviceName (Service_Name s))
      = Some (Some "service")
    ∧ Meta_Annotations meta = ∅
    ∧ Secret_Data secret
      = {[ "micro.mu/service-" +:+ serviceName (Service_Name s) := svc ]}.
Proof.
  intros Hc. destruct (Register_calls_cases h w s) as [Hnil|(svc & _ & Hsvc & Hcalls)].
  - rewrite Hnil in Hc. by apply elem_of_nil in Hc.
  - rewrite Hcalls in Hc |- *. apply list_elem_of_singleton in Hc as ->.
    eexists svc, _, _.
    split_and!; [done | done | done | done | done | | | | done | done]; cbn.
    + rewrite map_size_insert_None; [by rewrite map_size_singleton|].
      apply lookup_singleton_ne. intros Heq.
      by apply (type_label_ne_selector (serviceName (Service_Name s))).
    + apply lookup_insert_eq.
    + rewrite lookup_insert_ne by apply type_label_ne_selector.
      apply lookup_singleton_eq.
Qed.

(** X6.  For a service with nodes whose JSON can be written, [Register]
    returns nil exactly when the client's create succeeds, and otherwise
    the client's error, untouched; the store is left as the create left
    it. *)
Theorem Register_result {W : Type} (h : Handler W) (w : W) (s : Service) (svc : string) :
  Service_Nodes s ≠ [] →
  json_Marshal s = inl svc →
  value (run h (Register s) w)
  = match (h_create h (h_getenv h "HOSTNAME" w)
             (registerSecret (h_getenv h "HOSTNAME" w)
                (serviceName (Service_Name s)) svc) w).1 with
    | inl _ => None
    | inr e => Some (ClientError e)
    end
  ∧ world (run h (Register s) w)
    = (h_create h (h_getenv h "HOSTNAME" w)
         (registerSecret (h_getenv h "HOSTNAME" w)
            (serviceName (Service_Name s)) svc) w).2.
Proof. intros Hnodes Hsvc. by rewrite (Register_run h w s svc Hnodes Hsvc). Qed.

Lemma Register_mem_world (pod : string) (s : Service) (st : gmap string Secret) :
  world (run mem (Register s) (on_pod pod st))
  = on_pod pod (secrets (world (run mem (Register s) (on_pod pod st)))).
Proof.
  unfold Register. destruct (Nat.eqb (length (Service_Nodes s)) 0); [done|].
  cbn. by destruct (json_Marshal s).
Qed.

(** X7.  A process holds one record: when it registers a second service,
    the record of the first is replaced, and the store is the one the
    second registration alone would have left. *)
Theorem Register_overwrites (pod : string) (st : gmap string Secret)
    (s1 s2 : Service) (svc2 : string) :
  Service_Nodes s2 ≠ [] →
  json_Marshal s2 = inl svc2 →
  secrets (world (run mem (Register s2) (world (run mem (Register s1) (on_pod pod st)))))
  = secrets (world (run mem (Register s2) (on_pod pod st))).
Proof.
  intros Hnodes Hsvc. rewrite (Register_mem_world pod s1 st).
  rewrite !(Register_mem pod svc2 _ s2 Hnodes Hsvc). cbn.
  destruct (Register_mem_secrets pod s1 st) as [->|(svc1 & _ & ->)]; [done|].
  apply insert_insert_eq.
Qed.

(** X8.  [Register] and [Deregister] touch the record of their own pod
    only: the record of any other id is what it was. *)
Theorem Register_Deregister_frame (pod id : string) (st : gmap string Secret) (s : Service) :
  id ≠ pod →
  secrets (world (run mem (Register s) (on_pod pod st))) !! id = st !! id
  ∧ secrets (world (run mem (Deregister s) (on_pod pod st))) !! id = st !! id.
Proof.
  intros Hne. split.
  - destruct (Register_mem_secrets pod s st) as [->|(svc & _ & ->)]; [done|].
    by rewrite lookup_insert_ne.
  - unfold Deregister. destruct (Nat.eqb (length (Service_Nodes s)) 0); [done|].
    cbn. unfold mem_delete, mem_getenv. cbn. rewrite lookup_singleton_eq. cbn.
    destruct (st !! pod); cbn; [|done]. by rewrite lookup_delete_ne.
Qed.

(** X9.  For a service with nodes, [Deregister] returns nil exactly when
    the client's delete succeeds, and otherwise the client's error,
    untouched (a delete of a record that does not exist is not turned
    into a success). *)
Theorem Deregister_result {W : Type} (h : Handler W) (w : W) (s : Service) :
  Service_Nodes s ≠ [] →
  value (run h (Deregister s) w)
  = match (h_delete h (h_getenv h "HOSTNAME" w) w).1 with
    | None => None
    | Some e => Some (ClientError e)
    end.
Proof.
  intros Hnodes. unfold Deregister, value. rewrite (nodes_nonempty s Hnodes). cbn.
  by destruct (h_delete h _ w) as [[e|] w1].
Qed.

(** X10.  Registration and deregistration cancel: when the pod had no
    record, [Register] followed by [Deregister] (of any service with
    nodes) succeeds and leaves the store as it was. *)
Theorem Register_Deregister_restores (pod : string) (st : gmap string Secret)
    (s s' : Service) (svc : string) :
  st !! pod = None →
  Service_Nodes s ≠ [] →
  json_Marshal s = inl svc →
  Service_Nodes s' ≠ [] →
  value (run mem (Deregister s') (world (run mem (Register s) (on_pod pod st)))) = None
  ∧ secrets (world (run mem (Deregister s') (world (run mem (Register s) (on_pod pod st)))))
    = st.
Proof.
  intros Hfree Hnodes Hsvc Hnodes'. rewrite (Register_mem pod svc st s Hnodes Hsvc).
  unfold Deregister. rewrite (nodes_nonempty s' Hnodes'). cbn.
  unfold mem_delete, mem_getenv. cbn. rewrite lookup_singleton_eq. cbn.
  rewrite lookup_insert_eq. cbn. split; [done|]. by apply delete_insert_id.
Qed.

End RegisterFacts.

(** ** More about [GetService] and [ListServices] *)

Section QueryFacts.
Context `{J : JSON}.

Lemma GetService_loop_iff (name svcName : string) (items : list Secret) :
  ∀ svcs res,
    GetService_loop name svcName items svcs = Ok res
    ↔ Forall (entry_ok svcName) items
      ∧ res = svcs ++ omap (entry_service svcName) items.
Proof.
  induction items as [|secret items IH]; intros svcs res; cbn.
  - rewrite app_nil_r. split; [by intros [= <-] | by intros [_ ->]].
  - rewrite Forall_cons. unfold entry_ok at 1, entry_service at 1.
    destruct (Secret_Data secret !! _) as [svcStr|] eqn:Hdata; cbn.
    + destruct (json_Unmarshal svcStr) as [svc|] eqn:Hsvc; cbn.
      * rewrite IH, <- app_assoc. cbn. split.
        -- intros [Hall ->]. split; [|done]. split; [|done].
           intros ? [= <-]. by rewrite Hsvc.
        -- intros [[_ Hall] ->]. done.
      * split; [done|]. intros [[Hbad _] _].
        destruct (Hbad svcStr eq_refl) as [? Hsome]. by rewrite Hsvc in Hsome.
    + rewrite IH. split.
      * intros [Hall ->]. split; [|done]. split; [|done]. by intros ? [=].
      * intros [[_ Hall] ->]. done.
Qed.

Lemma GetService_calls {W : Type} (h : Handler W) (w : W) (name : string) :
  calls (run h (GetService name) w)
  = [CallList {[ svcSelectorPrefix +:+ serviceName name := svcSelectorValue ]}].
Proof.
  unfold GetService, calls. cbn.
  destruct (h_list h _ w) as [[l|e] w1]; cbn; [|done].
  by destruct (Nat.eqb (length (Items l)) 0).
Qed.

Lemma GetService_Ok_iff {W : Type} (h : Handler W) (w : W) (name : string)
    (res : list Service) :
  value (run h (GetService name) w) = Ok res
  ↔ ∃ l,
      (h_list h {[ svcSelectorPrefix +:+ serviceName name := svcSelectorValue ]} w).1 = inl l
      ∧ Items l ≠ []
      ∧ Forall (entry_ok (serviceName name)) (Items l)
      ∧ res = omap (entry_service (serviceName name)) (Items l).
Proof.
  rewrite GetService_value.
  destruct (h_list h _ w).1 as [l|e].
  - destruct (Nat.eqb (length (Items l)) 0) eqn:Hlen.
    + apply length_zero_nil in Hlen. split; [done|].
      intros (l' & [= <-] & Hne & _). done.
    + rewrite GetService_loop_iff. cbn. split.
      * intros [Hall ->]. exists l. split_and!; try done.
        intros Hnil. apply length_zero_nil in Hnil. congruence.
      * intros (l' & [= <-] & _ & Hall & ->). done.
  - split; [done|]. by intros (l' & ? & _).
Qed.


(** X11.  [GetService] returns a list exactly when the store answers its
    selector with at least one record and every payload entry present at
    the key decodes; the list then holds one service per record that has
    the entry, in the order of the records: records without the entry
    are left out and the nodes of several records are not merged. *)
Theorem GetService_result_iff {W : Type} (h : Handler W) (w : W) (name : string)
    (res : list Service) :
  value (run h (GetService name) w) = Ok res
  ↔ ∃ l,
      (h_list h {[ svcSelectorPrefix +:+ serviceName name := svcSelectorValue ]} w).1 = inl l
      ∧ Items l ≠ []
      ∧ Forall (entry_ok (serviceName name)) (Items l)
      ∧ res = omap (entry_service (serviceName name)) (Items l).
Proof. apply GetService_Ok_iff. Qed.

(** X12.  [GetService] sees a name through its token only: two names
    with the same token are answered by the same call and, when the
    lookup succeeds for one, by the same list. *)
Theorem GetService_alias {W : Type} (h : Handler W) (w : W) (name1 name2 : string) :
  serviceName name1 = serviceName name2 →
  calls (run h (GetService name1) w) = calls (run h (GetService name2) w)
  ∧ ∀ res,
      value (run h (GetService name1) w) = Ok res
      ↔ value (run h (GetService name2) w) = Ok res.
Proof.
  intros Heq. split.
  - by rewrite !GetService_calls, Heq.
  - intros res. by rewrite !GetService_Ok_iff, Heq.
Qed.

Lemma ListServices_value {W : Type} (h : Handler W) (w : W) :
  value (run h ListServices w)
  = match (h_list h secretSelector w).1 with
    | inr e => Returns (Err (ClientError e))
    | inl l =>
        match ListServices_loop (Items l) ∅ with
        | Panics msg => Panics msg
        | Returns svcs => Returns (Ok (named <$> (map_to_list svcs).*1))
        end
    end.
Proof.
  unfold ListServices, value. cbn.
  destruct (h_list h _ w) as [[l|e] w1]; cbn; [|done].
  by destruct (ListServices_loop (Items l) ∅).
Qed.

Lemma ListServices_calls {W : Type} (h : Handler W) (w : W) :
  calls (run h ListServices w) = [CallList secretSelector].
Proof.
  unfold ListServices, calls. cbn.
  destruct (h_list h _ w) as [[l|e] w1]; cbn; [|done].
  by destruct (ListServices_loop (Items l) ∅).
Qed.

(** X13.  Whatever the store answers, each lookup makes exactly one
    store call, a list (with the selector of the service for
    [GetService], with the label [micro.mu/type] for [ListServices]), and
    leaves the store as that call left it; and when the client fails, the
    lookup returns the error of the client, untouched. *)
Theorem lookups_one_call {W : Type} (h : Handler W) (w : W) (name : string) :
  calls (run h (GetService name) w)
  = [CallList {[ "micro.mu/selector-" +:+ serviceName name := "service" ]}]
  ∧ calls (run h ListServices w) = [CallList {[ "micro.mu/type" := "service" ]}]
  ∧ world (run h (GetService name) w)
    = (h_list h {[ "micro.mu/selector-" +:+ serviceName name := "service" ]} w).2
  ∧ world (run h ListServices w) = (h_list h {[ "micro.mu/type" := "service" ]} w).2
  ∧ (∀ e, (h_list h {[ "micro.mu/selector-" +:+ serviceName name := "service" ]} w).1 = inr e →
          value (run h (GetService name) w) = Err (ClientError e))
  ∧ (∀ e, (h_list h {[ "micro.mu/type" := "service" ]} w).1 = inr e →
          value (run h ListServices w) = Returns (Err (ClientError e))).
Proof.
  split_and!.
  - apply GetService_calls.
  - apply ListServices_calls.
  - unfold GetService, world. cbn.
    destruct (h_list h _ w) as [[l|e] w1]; cbn; [|done].
    by destruct (Nat.eqb (length (Items l)) 0).
  - unfold ListServices, world. cbn.
    destruct (h_list h _ w) as [[l|e] w1]; cbn; [|done].
    by destruct (ListServices_loop (Items l) ∅).
  - intros e He. rewrite GetService_value.
    change svcSelectorPrefix with "micro.mu/selector-".
    change svcSelectorValue with "service". by rewrite He.
  - intros e He. rewrite ListServices_value.
    change secretSelector with ({[ "micro.mu/type" := "service" ]} : gmap string string).
    by rewrite He.
Qed.

Lemma ListServices_annotations_returns (kvs : list (string * option string)) :
  Forall (λ kv, strings_HasPrefix kv.1 dataServiceKeyPrefix = true → kv.2 ≠ None) kvs →
  ∀ svcs, ∃ svcs',
    ListServices_annotations kvs svcs = Returns svcs'
    ∧ ∀ n, n ∈ dom svcs'
           ↔ n ∈ dom svcs
             ∨ ∃ kv svc, kv ∈ kvs ∧ service_of_annotation kv = Some svc
                         ∧ Service_Name svc = n.
Proof.
  induction 1 as [|[k v] kvs Hhead _ IH]; intros svcs; cbn.
  - exists svcs. split; [done|]. intros n. split; [by left|].
    intros [?|(kv & ? & Hin & _)]; [done|]. by apply elem_of_nil in Hin.
  - cbn in Hhead.
    assert (Hskip : service_of_annotation (k, v) = None →
      ∃ svcs', ListServices_annotations kvs svcs = Returns svcs'
        ∧ ∀ n, n ∈ dom svcs'
               ↔ n ∈ dom svcs
                 ∨ ∃ kv svc, kv ∈ (k, v) :: kvs ∧ service_of_annotation kv = Some svc
                             ∧ Service_Name svc = n).
    { intros Hnone. destruct (IH svcs) as (svcs' & Hret & Hdom).
      exists svcs'. split; [done|]. intros n. rewrite Hdom. split.
      - intros [?|(kv & svc & Hin & Hsvc & Hn)]; [by left|].
        right. exists kv, svc. split_and!; [by apply elem_of_cons; right | done | done].
      - intros [?|(kv & svc & Hin & Hsvc & Hn)]; [by left|].
        apply elem_of_cons in Hin as [->|Hin]; [congruence|].
        right. by exists kv, svc. }
    unfold service_of_annotation at 1 in Hskip. cbn [fst snd] in Hskip.
    unfold strings_HasPrefix, dataServiceKeyPrefix in *.
    destruct (String.prefix "micro.mu/service-" k) eqn:Hk; cbn; [|by apply Hskip].
    destruct v as [str|]; [|by destruct (Hhead eq_refl)].
    cbn in Hskip. destruct (json_Unmarshal str) as [svc|] eqn:Hsvc; [|by apply Hskip].
    destruct (IH (<[ Service_Name svc := true ]> svcs)) as (svcs' & Hret & Hdom).
    exists svcs'. split; [done|]. intros n. rewrite Hdom, dom_insert, elem_of_union,
      elem_of_singleton. split.
    + intros [[->|?]|(kv & svc' & Hin & Hsvc' & Hn)].
      * right. exists (k, Some str), svc. split_and!; [by apply elem_of_cons; left | | done].
        unfold service_of_annotation. cbn. by rewrite Hk.
      * by left.
      * right. exists kv, svc'. split_and!; [by apply elem_of_cons; right | done | done].
    + intros [?|(kv & svc' & Hin & Hsvc' & Hn)]; [by left; right|].
      apply elem_of_cons in Hin as [->|Hin].
      * left; left. unfold service_of_annotation in Hsvc'. cbn in Hsvc'.
        rewrite Hk in Hsvc'. cbn in Hsvc'. congruence.
      * right. by exists kv, svc'.
Qed.

Lemma listable_annotations (secret : Secret) (meta : Meta) :
  listable secret →
  Secret_Metadata secret = Some meta →
  Forall (λ kv, strings_HasPrefix kv.1 dataServiceKeyPrefix = true → kv.2 ≠ None)
         (map_to_list (Meta_Annotations meta)).
Proof.
  intros (meta' & Hmeta & Hnil) Hmeta'. rewrite Hmeta in Hmeta'. injection Hmeta' as <-.
  apply Forall_forall. intros [k v] Hin Hk. cbn in *.
  apply elem_of_map_to_list in Hin. intros ->. by apply (Hnil k Hk).
Qed.

Lemma ListServices_loop_returns (items : list Secret) :
  Forall listable items →
  ∀ svcs, ∃ svcs',
    ListServices_loop items svcs = Returns svcs'
    ∧ ∀ n, n ∈ dom svcs'
           ↔ n ∈ dom svcs ∨ ∃ secret, secret ∈ items ∧ announces secret n.
Proof.
  induction 1 as [|secret items Hhead _ IH]; intros svcs; cbn.
  - exists svcs. split; [done|]. intros n. split; [by left|].
    intros [?|(? & Hin & _)]; [done|]. by apply elem_of_nil in Hin.
  - destruct Hhead as (meta & Hmeta & Hnil). rewrite Hmeta.
    destruct (ListServices_annotations_returns (map_to_list (Meta_Annotations meta)))
      with (svcs := svcs) as (svcs1 & -> & Hdom1).
    { eapply listable_annotations; [by exists meta | done]. }
    destruct (IH svcs1) as (svcs' & Hret & Hdom).
    exists svcs'. split; [done|]. intros n. rewrite Hdom, Hdom1.
    assert (Hann : announces secret n
                   ↔ ∃ kv svc, kv ∈ map_to_list (Meta_Annotations meta)
                               ∧ service_of_annotation kv = Some svc
                               ∧ Service_Name svc = n).
    { unfold announces, annotations_of. by rewrite Hmeta. }
    split.
    + intros [[?|Hkv]|(secret' & Hin & Ha)].
      * by left.
      * right. exists secret. split; [by apply elem_of_cons; left | by apply Hann].
      * right. exists secret'. split; [by apply elem_of_cons; right | done].
    + intros [?|(secret' & Hin & Ha)]; [by left; left|].
      apply elem_of_cons in Hin as [->|Hin].
      * left; right. by apply Hann.
      * right. by exists secret'.
Qed.

(** X14.  When every record the store lists has metadata and no nil
    annotation under the service prefix, [ListServices] succeeds, whatever
    the annotations decode to; it returns one record per distinct name,
    holding the name and nothing else, and the names are exactly the names
    of the services that the annotations of the listed records decode
    to. *)
Theorem ListServices_names {W : Type} (h : Handler W) (w : W) (l : SecretList) :
  (h_list h secretSelector w).1 = inl l →
  Forall listable (Items l) →
  ∃ res,
    value (run h ListServices w) = Returns (Ok res)
    ∧ NoDup (Service_Name <$> res)
    ∧ ∀ svc, svc ∈ res
             ↔ ∃ n, svc = named n
                    ∧ ∃ secret, secret ∈ Items l ∧ announces secret n.
Proof.
  intros Hl Hall. rewrite ListServices_value, Hl.
  destruct (ListServices_loop_returns (Items l) Hall ∅) as (svcs & -> & Hdom).
  eexists. split_and!; [done | |].
  - replace (Service_Name <$> (named <$> (map_to_list svcs).*1))
      with (map_to_list svcs).*1; [apply NoDup_fst_map_to_list|].
    rewrite <- list_fmap_compose.
    rewrite <- (list_fmap_id (map_to_list svcs).*1) at 1.
    by apply list_fmap_ext.
  - intros svc. rewrite list_elem_of_fmap. split.
    + intros (n & -> & Hn). exists n. split; [done|].
      apply list_elem_of_fmap in Hn as ([k b] & -> & Hkb).
      apply elem_of_map_to_list in Hkb. cbn.
      assert (Hd : k ∈ dom svcs) by (apply elem_of_dom; by exists b).
      apply Hdom in Hd as [Hd|Hd]; [|done]. by rewrite dom_empty in Hd.
    + intros (n & -> & Hsec). exists n. split; [done|].
      assert (Hd : n ∈ dom svcs) by (apply Hdom; by right).
      apply elem_of_dom in Hd as [b Hb].
      apply list_elem_of_fmap. exists (n, b). split; [done|].
      by apply elem_of_map_to_list.
Qed.

End QueryFacts.

(** ** Nil pointers, and what the watcher and the listing agree on *)

Section NilFacts.
Context `{J : JSON}.

Lemma ListServices_annotations_panic_msg (kvs : list (string * option string)) :
  ∀ svcs msg,
    ListServices_annotations kvs svcs = Panics msg →
    msg = "invalid memory address or nil pointer dereference".
Proof.
  induction kvs as [|[k v] kvs IH]; intros svcs msg; cbn; [done|].
  destruct (negb _); [apply IH|].
  destruct v as [str|]; [|by intros [= <-]].
  destruct (json_Unmarshal str); apply IH.
Qed.

Lemma ListServices_annotations_panics (kvs : list (string * option string)) (k : string) :
  (k, None) ∈ kvs →
  strings_HasPrefix k dataServiceKeyPrefix = true →
  ∀ svcs, ListServices_annotations kvs svcs
          = Panics "invalid memory address or nil pointer dereference".
Proof.
  intros Hin Hk. induction kvs as [|[k' v'] kvs IH]; intros svcs.
  - by apply elem_of_nil in Hin.
  - cbn. apply elem_of_cons in Hin as [[= <- <-]|Hin].
    + by rewrite Hk.
    + destruct (negb _); [by apply IH|].
      destruct v' as [str|]; [|done].
      destruct (json_Unmarshal str); by apply IH.
Qed.

Lemma ListServices_loop_panic_msg (items : list Secret) :
  ∀ svcs msg,
    ListServices_loop items svcs = Panics msg →
    msg = "invalid memory address or nil pointer dereference".
Proof.
  induction items as [|secret items IH]; intros svcs msg; cbn; [done|].
  destruct (Secret_Metadata secret) as [meta|]; [|by intros [= <-]].
  destruct (ListServices_annotations _ svcs) as [svcs'|msg'] eqn:Hann.
  - apply IH.
  - intros [= <-]. by eapply ListServices_annotations_panic_msg.
Qed.

(** X15.  [ListServices] dereferences without a check: as soon as one of
    the listed records has no metadata, or has an annotation under the
    service prefix whose value is nil, the call panics with a nil pointer
    dereference, whatever the other records hold. *)
Theorem ListServices_nil_panics {W : Type} (h : Handler W) (w : W) (l : SecretList)
    (secret : Secret) :
  (h_list h secretSelector w).1 = inl l →
  secret ∈ Items l →
  (Secret_Metadata secret = None
   ∨ ∃ meta k, Secret_Metadata secret = Some meta
               ∧ strings_HasPrefix k "micro.mu/service-" = true
               ∧ Meta_Annotations meta !! k = Some None) →
  value (run h ListServices w)
  = Panics "invalid memory address or nil pointer dereference".
Proof.
  intros Hl Hin Hnil. rewrite ListServices_value, Hl.
  assert (Hloop : ∀ svcs, ListServices_loop (Items l) svcs
                          = Panics "invalid memory address or nil pointer dereference").
  { induction (Items l) as [|secret' items IH]; intros svcs.
    - by apply elem_of_nil in Hin.
    - cbn. apply elem_of_cons in Hin as [<-|Hin].
      + destruct Hnil as [->|(meta & k & -> & Hk & Hnone)]; [done|].
        rewrite (ListServices_annotations_panics _ k); [done | | done].
        by apply elem_of_map_to_list.
      + destruct (Secret_Metadata secret') as [meta|]; [|done].
        destruct (ListServices_annotations _ svcs) as [svcs'|msg] eqn:Hann.
        * by apply IH.
        * by rewrite (ListServices_annotations_panic_msg _ _ _ Hann). }
  by rewrite Hloop.
Qed.

Lemma length_omap_le {A B : Type} (f : A → option B) (l : list A) :
  (length (omap f l) ≤ length l)%nat.
Proof. induction l as [|a l IH]; cbn; [done|]. destruct (f a); cbn; lia. Qed.

(** X16.  [handleEvent] sends at most one result per annotation of the
    object it decodes (none when the object does not decode), and every
    result carries the action of the kind of the notification: "create"
    for Added, "delete" for Deleted. *)
Theorem handleEvent_bounds (event : Event) :
  (length (handleEvent event)
   ≤ match json_Unmarshal_Secret (Event_Object event) with
     | Some secret => length (annotations_of secret)
     | None => 0
     end)%nat
  ∧ Forall (λ r, (Event_Type event = Added ∧ Result_Action r = "create")
                 ∨ (Event_Type event = Deleted ∧ Result_Action r = "delete"))
           (handleEvent event).
Proof.
  unfold handleEvent.
  destruct (json_Unmarshal_Secret (Event_Object event)) as [secret|]; [|by split].
  destruct (Event_Type event); [| by split; [cbn; lia | constructor] |];
    rewrite buildSecretResults_omap; (split;
      [rewrite length_fmap; apply length_omap_le
      | apply Forall_fmap, Forall_forall; intros svc _; cbn; auto]).
Qed.

(** X17.  The watcher and the listing read a record the same way: for a
    record that [ListServices] can read, the names it adds are exactly
    the names of the services in the results [buildSecretResults] builds
    from that record. *)
Theorem watcher_and_listing_agree (secret : Secret) (action : string) :
  listable secret →
  ∃ svcs,
    ListServices_loop [secret] ∅ = Returns svcs
    ∧ ∀ n, n ∈ dom svcs
           ↔ n ∈ (λ r, Service_Name (Result_Service r))
                   <$> buildSecretResults secret action.
Proof.
  intros Hlist.
  destruct (ListServices_loop_returns [secret]) with (svcs := (∅ : gmap string bool))
    as (svcs & Hret & Hdom); [by repeat constructor|].
  exists svcs. split; [done|]. intros n. rewrite Hdom, dom_empty.
  rewrite buildSecretResults_omap, <- list_fmap_compose, list_elem_of_fmap. split.
  - intros [?|(secret' & Hin & kv & svc & Hkv & Hsvc & Hn)]; [done|].
    apply list_elem_of_singleton in Hin as ->.
    exists svc. split; [done|]. apply list_elem_of_omap. by exists kv.
  - intros (svc & -> & Hin). apply list_elem_of_omap in Hin as (kv & Hkv & Hsvc).
    right. exists secret. split; [by apply list_elem_of_singleton|]. by exists kv, svc.
Qed.

End NilFacts.

(** ** More about the watch session *)

Section SessionFacts.
Context `{J : JSON}.

(** X18.  [Stop] can lose an event and leave the channel open: when it
    runs while the forwarding task is blocked in a send, its [select]
    receives the pending result, which no [Next] will ever return, and
    [Stop] returns without closing the channel. *)
Theorem Stop_swallows_pending_event (events : list Event) (stopped : bool) (r : Result)
    (code0 rest : list instr) (got0 got1 : list (result Result)) :
  exec [1; 1]
    {| next_closed := false; upstream := events; upstream_stopped := stopped;
       goroutines := [ {| code := ISend r :: code0; got := got0 |};
                       {| code := Stop ++ rest; got := got1 |} ];
       panicked := None |}
  = Some {| next_closed := false; upstream := events; upstream_stopped := true;
            goroutines := [ {| code := code0; got := got0 |};
                            {| code := rest; got := got1 |} ];
            panicked := None |}.
Proof. reflexivity. Qed.

Lemma deliver_results (rs : list Result) :
  ∀ (events : list Event) (tail1 : list instr) (got1 : list (result Result))
    (schedule : list nat),
    exec (replicate (length rs) 1 ++ schedule)
      {| next_closed := false; upstream := events; upstream_stopped := false;
         goroutines := [ {| code := (ISend <$> rs) ++ [IRange]; got := [] |};
                         {| code := replicate (length rs) INext ++ tail1; got := got1 |} ];
         panicked := None |}
    = exec schedule
        {| next_closed := false; upstream := events; upstream_stopped := false;
           goroutines := [ {| code := [IRange]; got := [] |};
                           {| code := tail1; got := got1 ++ (Ok <$> rs) |} ];
           panicked := None |}.
Proof.
  induction rs as [|r rs IH]; intros events tail1 got1 schedule.
  - cbn. by rewrite app_nil_r.
  - cbn [length replicate app fmap list_fmap]. cbn [exec]. cbn [step]. cbn.
    unfold set_goroutines, advance. cbn.
    rewrite IH. by rewrite <- app_assoc.
Qed.

Lemma deliver_events (events : list Event) :
  ∀ got1,
    exec (deliver_schedule ((λ e, length (handleEvent e)) <$> events))
      {| next_closed := false; upstream := events; upstream_stopped := false;
         goroutines :=
           [ {| code := [IRange]; got := [] |};
             {| code := replicate (length (concat (handleEvent <$> events))) INext ++ [INext];
                got := got1 |} ];
         panicked := None |}
    = Some {| next_closed := true; upstream := []; upstream_stopped := true;
              goroutines :=
                [ {| code := []; got := [] |};
                  {| code := [];
                     got := got1 ++ (Ok <$> concat (handleEvent <$> events))
                            ++ [Err (errors_New "result chan closed")] |} ];
              panicked := None |}.
Proof.
  induction events as [|event events IH]; intros got1.
  - reflexivity.
  - cbn [fmap list_fmap concat deliver_schedule]. rewrite length_app, replicate_add.
    cbn [exec]. cbn [step]. cbn [panicked goroutines lookup list_lookup mbind option_bind
                                   code upstream_stopped upstream].
    cbn. rewrite <- app_assoc. rewrite deliver_results, IH.
    by rewrite fmap_app, <- !app_assoc.
Qed.

(** X19.  With one caller draining [Next], nothing is lost or reordered:
    in the schedule where the forwarding task and the caller take turns,
    the caller receives the results of every notification, in the order
    of the notifications, then the error of the closed channel; the
    channel is closed once and nothing panics. *)
Theorem session_delivers_all (events : list Event) :
  (λ s, (next_closed s, panicked s, got <$> goroutines s))
    <$> exec (deliver_schedule ((λ e, length (handleEvent e)) <$> events))
          (new_session events
             [replicate (S (length (concat (handleEvent <$> events)))) INext])
  = Some (true, None,
          [[]; (Ok <$> concat (handleEvent <$> events))
               ++ [Err (errors_New "result chan closed")]]).
Proof.
  unfold new_session, forwarding_task. cbn [fmap list_fmap].
  rewrite replicate_S_end, deliver_events. reflexivity.
Qed.

Lemma find_sender_insert (gs : list goroutine) :
  ∀ (j i : nat) (g : goroutine),
    find_sender j gs = None →
    sending g = None →
    find_sender j (<[ i := g ]> gs) = None.
Proof.
  induction gs as [|g0 gs IH]; intros j i g Hnone Hg; [done|].
  cbn in Hnone. destruct (sending g0) eqn:Hg0; [by destruct (sending g0)|].
  destruct i as [|i]; cbn.
  - by rewrite Hg.
  - rewrite Hg0. by apply IH.
Qed.

Lemma step_WatcherStop (s : session) (i : nat) (g : goroutine) (rest : list instr) :
  panicked s = None →
  goroutines s !! i = Some g →
  code g = IWatcherStop :: rest →
  step i s
  = Some {| next_closed := next_closed s; upstream := upstream s;
            upstream_stopped := true;
            goroutines := <[ i := {| code := rest; got := got g |} ]> (goroutines s);
            panicked := None |}.
Proof. intros Hp Hg Hcode. unfold step. rewrite Hp, Hg. cbn. by rewrite Hcode. Qed.

Lemma step_Select_default (s : session) (i : nat) (g : goroutine) (rest : list instr) :
  panicked s = None →
  next_closed s = false →
  find_sender 0 (goroutines s) = None →
  goroutines s !! i = Some g →
  code g = ISelect :: rest →
  step i s
  = Some (set_goroutines s (<[ i := {| code := rest; got := got g |} ]> (goroutines s))).
Proof.
  intros Hp Hopen Hnone Hg Hcode. unfold step. rewrite Hp, Hg. cbn.
  by rewrite Hcode, Hopen, Hnone.
Qed.

Lemma step_Close (s : session) (i : nat) (g : goroutine) (rest : list instr) :
  panicked s = None →
  next_closed s = false →
  goroutines s !! i = Some g →
  code g = IClose :: rest →
  step i s
  = Some {| next_closed := true; upstream := upstream s;
            upstream_stopped := upstream_stopped s;
            goroutines := <[ i := {| code := rest; got := got g |} ]> (goroutines s);
            panicked := None |}.
Proof.
  intros Hp Hopen Hg Hcode. unfold step. rewrite Hp, Hg. cbn. by rewrite Hcode, Hopen.
Qed.

Lemma exec_app (l1 l2 : list nat) :
  ∀ s, exec (l1 ++ l2) s = exec l1 s ≫= exec l2.
Proof.
  induction l1 as [|a l1 IH]; intros s; cbn; [done|].
  destruct (step a s); cbn; [apply IH | done].
Qed.

(** X20.  Run by one goroutine while nobody sends, [Stop] stops the
    upstream and closes the channel, and a second [Stop] after it changes
    nothing more: two [Stop] in sequence close once and do not panic. *)
Theorem Stop_twice_closes_once (s : session) (i : nat) (g : goroutine) (rest : list instr) :
  panicked s = None →
  next_closed s = false →
  find_sender 0 (goroutines s) = None →
  goroutines s !! i = Some g →
  code g = Stop ++ Stop ++ rest →
  exec [i; i; i] s
  = Some {| next_closed := true; upstream := upstream s; upstream_stopped := true;
            goroutines := <[ i := {| code := Stop ++ rest; got := got g |} ]> (goroutines s);
            panicked := None |}
  ∧ exec [i; i; i; i; i] s
    = Some {| next_closed := true; upstream := upstream s; upstream_stopped := true;
              goroutines := <[ i := {| code := rest; got := got g |} ]> (goroutines s);
              panicked := None |}.
Proof.
  intros Hp Hopen Hnone Hg Hcode.
  assert (Hi : i < length (goroutines s)) by by eapply lookup_lt_Some.
  assert (H3 : exec [i; i; i] s
    = Some {| next_closed := true; upstream := upstream s; upstream_stopped := true;
              goroutines := <[ i := {| code := Stop ++ rest; got := got g |} ]> (goroutines s);
              panicked := None |}).
  { cbn [exec].
    rewrite (step_WatcherStop s i g (ISelect :: IClose :: Stop ++ rest) Hp Hg Hcode).
    cbn [mbind option_bind].
    erewrite step_Select_default;
      [ | done | exact Hopen | by apply find_sender_insert
        | by apply list_lookup_insert_eq | done ].
    cbn [mbind option_bind].
    erewrite step_Close;
      [ | done | exact Hopen | cbn; apply list_lookup_insert_eq; by rewrite length_insert
        | done ].
    cbn. by rewrite !list_insert_insert_eq. }
  split; [exact H3|].
  change [i; i; i; i; i] with ([i; i; i] ++ [i; i]).
  rewrite exec_app, H3. cbn [mbind option_bind exec].
  erewrite step_WatcherStop; [ | done | by apply list_lookup_insert_eq | done ].
  cbn [mbind option_bind].
  erewrite Stop_on_closed_channel;
    [ | done | done | cbn; apply list_lookup_insert_eq; by rewrite length_insert | done ].
  cbn. by rewrite !list_insert_insert_eq.
Qed.

End SessionFacts.

(** ** The client inside a cluster *)

(** X21.  [detectNamespace] succeeds exactly when the namespace file of
    the service account exists, is not a directory and can be read, and
    it then returns the content of the file; it fails with
    [ErrReadNamespace] exactly when the path is a directory. *)
Theorem detectNamespace_iff {CertPool : Type} (host : client.Host CertPool) (ns : string) :
  (client.detectNamespace host = (ns, None)
   ↔ ∃ info,
       client.Stat host "/var/run/secrets/kubernetes.io/serviceaccount/namespace" = inl info
       ∧ client.IsDir info = false
       ∧ client.ReadFile host "/var/run/secrets/kubernetes.io/serviceaccount/namespace"
         = (ns, None))
  ∧ ((client.detectNamespace host).2 = Some client.ErrReadNamespace
     ↔ ∃ info,
         client.Stat host "/var/run/secrets/kubernetes.io/serviceaccount/namespace" = inl info
         ∧ client.IsDir info = true).
Proof.
  unfold client.detectNamespace.
  change (client.path_Join client.serviceAccountPath "namespace")
    with "/var/run/secrets/kubernetes.io/serviceaccount/namespace".
  destruct (client.Stat host _) as [info|e].
  - destruct (client.IsDir info) eqn:Hdir.
    + split; split; [done | | eauto | done].
      intros (info' & [= <-] & Hdir' & _). congruence.
    + destruct (client.ReadFile host _) as [ns' [e|]]; split; split; try done.
      * intros (info' & [= <-] & _ & [=]).
      * intros (info' & [= <-] & Hdir'). congruence.
      * intros [= <-]. eauto.
      * intros (info' & [= <-] & _ & [= <-]). done.
      * intros (info' & [= <-] & Hdir'). congruence.
  - split; split; [done | | done |]; by intros (info & ? & _).
Qed.

(** X22.  [NewClientInCluster] returns a client exactly when the service
    account directory exists and is a directory, the token can be read,
    the namespace file is a readable regular file and the certificates
    load; every other case stops the process.  The client it returns has
    the host "https://" + KUBERNETES_SERVICE_HOST + ":" +
    KUBERNETES_SERVICE_PORT, the content of the namespace file as its
    namespace, the content of the token file as its bearer token and the
    loaded certificates. *)
Theorem NewClientInCluster_iff {CertPool : Type} (host : client.Host CertPool)
    (opts : client.Options CertPool) :
  client.NewClientInCluster host = client.Running opts
  ↔ ∃ dir file token ns crt,
      client.Stat host "/var/run/secrets/kubernetes.io/serviceaccount" = inl dir
      ∧ client.IsDir dir = true
      ∧ client.ReadFile host "/var/run/secrets/kubernetes.io/serviceaccount/token"
        = (token, None)
      ∧ client.Stat host "/var/run/secrets/kubernetes.io/serviceaccount/namespace" = inl file
      ∧ client.IsDir file = false
      ∧ client.ReadFile host "/var/run/secrets/kubernetes.io/serviceaccount/namespace"
        = (ns, None)
      ∧ client.CertPoolFromFile host "/var/run/secrets/kubernetes.io/serviceaccount/ca.crt"
        = inl crt
      ∧ opts = client.mkOptions
                 ("https://" +:+ client.Getenv host "KUBERNETES_SERVICE_HOST"
                  +:+ ":" +:+ client.Getenv host "KUBERNETES_SERVICE_PORT")
                 ns (Some token) (Some crt).
Proof.
  unfold client.NewClientInCluster, client.detectNamespace.
  change (client.path_Join client.serviceAccountPath "namespace")
    with "/var/run/secrets/kubernetes.io/serviceaccount/namespace".
  change (client.path_Join client.serviceAccountPath "token")
    with "/var/run/secrets/kubernetes.io/serviceaccount/token".
  change (client.path_Join client.serviceAccountPath "ca.crt")
    with "/var/run/secrets/kubernetes.io/serviceaccount/ca.crt".
  change client.serviceAccountPath with "/var/run/secrets/kubernetes.io/serviceaccount".
  split.
  - destruct (client.Stat host "/var/run/secrets/kubernetes.io/serviceaccount")
      as [dir|e]; [|done].
    destruct (client.IsDir dir) eqn:Hdir; cbn; [|done].
    destruct (client.ReadFile host "/var/run/secrets/kubernetes.io/serviceaccount/token")
      as [token [e|]]; [done|].
    destruct (client.Stat host "/var/run/secrets/kubernetes.io/serviceaccount/namespace")
      as [file|e]; [|done].
    destruct (client.IsDir file) eqn:Hfile; [done|].
    destruct (client.ReadFile host "/var/run/secrets/kubernetes.io/serviceaccount/namespace")
      as [ns [e|]]; [done|].
    destruct (client.CertPoolFromFile host _) as [crt|e]; [|done].
    intros [= <-]. by exists dir, file, token, ns, crt.
  - intros (dir & file & token & ns & crt & -> & -> & -> & -> & -> & -> & -> & ->). done.
Qed.

(** ** The added theorems at work on sample data *)

Lemma Register_record_shape_witness :
  CallCreate "pod-1" (registerSecret "pod-1" "greeter" (json_of greeter))
  ∈ calls (run mem (Register (J := json.codec) greeter) (on_pod "pod-1" ∅))
  ∧ ∃ svc secret meta,
      calls (run mem (Register (J := json.codec) greeter) (on_pod "pod-1" ∅))
      = [CallCreate "pod-1" (registerSecret "pod-1" "greeter" (json_of greeter))]
      ∧ CallCreate "pod-1" (registerSecret "pod-1" "greeter" (json_of greeter))
        = CallCreate (h_getenv mem "HOSTNAME" (on_pod "pod-1" ∅)) secret
      ∧ json_Marshal (JSON := json.codec) greeter = inl svc
      ∧ Secret_Metadata secret = Some meta
      ∧ Meta_Name meta = h_getenv mem "HOSTNAME" (on_pod "pod-1" ∅)
      ∧ size (Meta_Labels meta) = 2
      ∧ Meta_Labels meta !! "micro.mu/type" = Some (Some "service")
      ∧ Meta_Labels meta !! ("micro.mu/selector-" +:+ serviceName (Service_Name greeter))
        = Some (Some "service")
      ∧ Meta_Annotations meta = ∅
      ∧ Secret_Data secret
        = {[ "micro.mu/service-" +:+ serviceName (Service_Name greeter) := svc ]}.
Proof.
  assert (Hin : CallCreate "pod-1" (registerSecret "pod-1" "greeter" (json_of greeter))
                ∈ calls (run mem (Register (J := json.codec) greeter) (on_pod "pod-1" ∅))).
  { vm_compute. apply list_elem_of_here. }
  split; [exact Hin|].
  exact (Register_record_shape (J := json.codec) mem _ greeter _ Hin).
Defined.

Lemma Register_result_witness :
  Service_Nodes greeter ≠ []
  ∧ json_Marshal (JSON := json.codec) greeter = inl (json_of greeter)
  ∧ value (run unreachable (Register (J := json.codec) greeter) ())
    = Some (ClientError "connection refused").
Proof.
  assert (Hnodes : Service_Nodes greeter ≠ []) by discriminate.
  assert (Hb : json_Marshal (JSON := json.codec) greeter = inl (json_of greeter))
    by reflexivity.
  split_and!; [exact Hnodes | exact Hb |].
  exact (proj1 (Register_result (J := json.codec) unreachable () greeter _ Hnodes Hb)).
Defined.

Lemma Register_overwrites_witness :
  Service_Nodes (sample "b") ≠ []
  ∧ json_Marshal (JSON := json.codec) (sample "b") = inl (json_of (sample "b"))
  ∧ secrets (world (run mem (Register (J := json.codec) (sample "b"))
                      (world (run mem (Register (J := json.codec) (sample "a"))
                                (on_pod "pod-1" ∅)))))
    = secrets (world (run mem (Register (J := json.codec) (sample "b")) (on_pod "pod-1" ∅))).
Proof.
  assert (Hnodes : Service_Nodes (sample "b") ≠ []) by discriminate.
  assert (Hb : json_Marshal (JSON := json.codec) (sample "b") = inl (json_of (sample "b")))
    by reflexivity.
  split_and!; [exact Hnodes | exact Hb |].
  exact (Register_overwrites (J := json.codec) "pod-1" ∅ (sample "a") (sample "b") _ Hnodes Hb).
Defined.

Lemma Register_Deregister_frame_witness :
  "pod-0" ≠ "pod-1"
  ∧ secrets (world (run mem (Register (J := json.codec) greeter)
                      (on_pod "pod-1" (<[ "pod-0" := bare_secret ]> ∅)))) !! "pod-0"
    = (<[ "pod-0" := bare_secret ]> ∅ : gmap string Secret) !! "pod-0"
  ∧ secrets (world (run mem (Deregister greeter)
                      (on_pod "pod-1" (<[ "pod-0" := bare_secret ]> ∅)))) !! "pod-0"
    = (<[ "pod-0" := bare_secret ]> ∅ : gmap string Secret) !! "pod-0".
Proof.
  assert (Hne : "pod-0" ≠ "pod-1") by discriminate.
  split; [exact Hne|].
  exact (Register_Deregister_frame (J := json.codec) "pod-1" "pod-0" _ greeter Hne).
Defined.

Lemma Deregister_result_witness :
  Service_Nodes greeter ≠ []
  ∧ value (run unreachable (Deregister greeter) ()) = Some (ClientError "connection refused").
Proof.
  assert (Hnodes : Service_Nodes greeter ≠ []) by discriminate.
  split; [exact Hnodes|].
  exact (Deregister_result unreachable () greeter Hnodes).
Defined.

Lemma Register_Deregister_restores_witness :
  (<[ "pod-0" := bare_secret ]> ∅ : gmap string Secret) !! "pod-1" = None
  ∧ Service_Nodes greeter ≠ []
  ∧ json_Marshal (JSON := json.codec) greeter = inl (json_of greeter)
  ∧ Service_Nodes (sample "other") ≠ []
  ∧ secrets (world (run mem (Deregister (sample "other"))
                      (world (run mem (Register (J := json.codec) greeter)
                                (on_pod "pod-1" (<[ "pod-0" := bare_secret ]> ∅))))))
    = <[ "pod-0" := bare_secret ]> ∅.
Proof.
  assert (Hfree : (<[ "pod-0" := bare_secret ]> ∅ : gmap string Secret) !! "pod-1" = None)
    by (vm_compute; reflexivity).
  assert (Hnodes : Service_Nodes greeter ≠ []) by discriminate.
  assert (Hb : json_Marshal (JSON := json.codec) greeter = inl (json_of greeter))
    by reflexivity.
  assert (Hnodes' : Service_Nodes (sample "other") ≠ []) by discriminate.
  split_and!; [exact Hfree | exact Hnodes | exact Hb | exact Hnodes' |].
  exact (proj2 (Register_Deregister_restores (J := json.codec) "pod-1" _ greeter
                  (sample "other") _ Hfree Hnodes Hb Hnodes')).
Defined.

Lemma GetService_alias_witness :
  serviceName "go micro" = serviceName "go_micro"
  ∧ calls (run mem (GetService (J := json.codec) "go micro") (on_pod "pod-1" ∅))
    = calls (run mem (GetService (J := json.codec) "go_micro") (on_pod "pod-1" ∅)).
Proof.
  assert (Heq : serviceName "go micro" = serviceName "go_micro") by (vm_compute; reflexivity).
  split; [exact Heq|].
  exact (proj1 (GetService_alias (J := json.codec) mem (on_pod "pod-1" ∅) _ _ Heq)).
Defined.

Lemma lookups_one_call_witness :
  (h_list unreachable
     {[ "micro.mu/selector-" +:+ serviceName "greeter" := "service" ]} ()).1
  = inr "connection refused"
  ∧ (h_list unreachable {[ "micro.mu/type" := "service" ]} ()).1 = inr "connection refused"
  ∧ value (run unreachable (GetService (J := json.codec) "greeter") ())
    = Err (ClientError "connection refused")
  ∧ value (run unreachable (ListServices (J := json.codec)) ())
    = Returns (Err (ClientError "connection refused"))
  ∧ calls (run mem (GetService (J := json.codec) "greeter") (on_pod "pod-1" ∅))
    = [CallList {[ "micro.mu/selector-" +:+ serviceName "greeter" := "service" ]}]
  ∧ calls (run mem (ListServices (J := json.codec)) (on_pod "pod-1" ∅))
    = [CallList {[ "micro.mu/type" := "service" ]}].
Proof.
  destruct (lookups_one_call (J := json.codec) unreachable () "greeter")
    as (_ & _ & _ & _ & HG & HL).
  destruct (lookups_one_call (J := json.codec) mem (on_pod "pod-1" ∅) "greeter")
    as (HcG & HcL & _).
  split_and!; [reflexivity | reflexivity | by apply HG | by apply HL | exact HcG | exact HcL].
Defined.

(** X23.  A watch filtered to the service [x] asks the store for the
    records whose selector label is that of the token of [x]: the record
    [Register] writes for a service [y] is selected exactly when [x] and
    [y] have the same token, whereas a watch without a filter, like
    [ListServices], selects the record of every service. *)
Theorem newWatcher_selector_filter (x y podName svc : string) :
  x ≠ EmptyString →
  (selects (newWatcher_selector x) (registerSecret podName (serviceName y) svc) = true
   ↔ serviceName x = serviceName y)
  ∧ newWatcher_selector EmptyString = secretSelector
  ∧ selects secretSelector (registerSecret podName (serviceName y) svc) = true.
Proof.
  intros Hx. split_and!.
  - by apply newWatcher_selector_selects.
  - reflexivity.
  - unfold selects, secretSelector. cbn [Secret_Metadata registerSecret Meta_Labels].
    rewrite map_to_list_singleton. cbn [forallb fst snd]. rewrite andb_true_r.
    apply bool_decide_eq_true. apply lookup_insert_eq.
Qed.

Lemma newWatcher_selector_filter_witness :
  "go micro" ≠ EmptyString
  ∧ selects (newWatcher_selector "go micro")
      (registerSecret "pod-1" (serviceName "go_micro") (json_of (sample "go_micro")))
    = true.
Proof.
  assert (Hx : "go micro" ≠ EmptyString) by discriminate.
  split; [exact Hx|].
  apply (proj1 (newWatcher_selector_filter "go micro" "go_micro" "pod-1"
                  (json_of (sample "go_micro")) Hx)).
  vm_compute. reflexivity.
Defined.

Lemma annotated_secret_listable : listable annotated_secret.
Proof.
  eexists. split; [reflexivity|]. intros k _ Hnone.
  apply elem_of_map_to_list in Hnone.
  set (kvs := map_to_list _) in Hnone. vm_compute in kvs. subst kvs.
  repeat (apply elem_of_cons in Hnone as [Hnone|Hnone]; [discriminate Hnone|]).
  by apply elem_of_nil in Hnone.
Defined.

Lemma ListServices_names_witness :
  (h_list mem secretSelector (on_pod "pod-1" (<[ "pod-2" := annotated_secret ]> ∅))).1
  = inl {| Items := [annotated_secret] |}
  ∧ Forall listable [annotated_secret]
  ∧ ∃ res,
      value (run mem (ListServices (J := json.codec))
               (on_pod "pod-1" (<[ "pod-2" := annotated_secret ]> ∅)))
      = Returns (Ok res)
      ∧ NoDup (Service_Name <$> res).
Proof.
  assert (Hl : (h_list mem secretSelector
                  (on_pod "pod-1" (<[ "pod-2" := annotated_secret ]> ∅))).1
               = inl {| Items := [annotated_secret] |}) by (vm_compute; reflexivity).
  assert (Hall : Forall listable (Items {| Items := [annotated_secret] |})).
  { constructor; [exact annotated_secret_listable | constructor]. }
  destruct (ListServices_names (J := json.codec) mem _ _ Hl Hall) as (res & Hres & Hnd & _).
  split_and!; [exact Hl | exact Hall |].
  exists res. split; [exact Hres | exact Hnd].
Defined.

Lemma ListServices_nil_panics_witness :
  (h_list mem secretSelector
     (on_pod "pod-1" (<[ "pod-3" := nil_annotation_secret ]> ∅))).1
  = inl {| Items := [nil_annotation_secret] |}
  ∧ nil_annotation_secret ∈ [nil_annotation_secret]
  ∧ (Secret_Metadata nil_annotation_secret = None
     ∨ ∃ meta k, Secret_Metadata nil_annotation_secret = Some meta
                 ∧ strings_HasPrefix k "micro.mu/service-" = true
                 ∧ Meta_Annotations meta !! k = Some None)
  ∧ value (run mem (ListServices (J := json.codec))
             (on_pod "pod-1" (<[ "pod-3" := nil_annotation_secret ]> ∅)))
    = Panics "invalid memory address or nil pointer dereference".
Proof.
  assert (Hl : (h_list mem secretSelector
                  (on_pod "pod-1" (<[ "pod-3" := nil_annotation_secret ]> ∅))).1
               = inl {| Items := [nil_annotation_secret] |}) by (vm_compute; reflexivity).
  assert (Hin : nil_annotation_secret ∈ Items {| Items := [nil_annotation_secret] |})
    by apply list_elem_of_here.
  assert (Hnil : Secret_Metadata nil_annotation_secret = None
     ∨ ∃ meta k, Secret_Metadata nil_annotation_secret = Some meta
                 ∧ strings_HasPrefix k "micro.mu/service-" = true
                 ∧ Meta_Annotations meta !! k = Some None).
  { right. eexists _, "micro.mu/service-x". split_and!; [reflexivity | | ]; vm_compute; reflexivity. }
  split_and!; [exact Hl | exact Hin | exact Hnil |].
  exact (ListServices_nil_panics (J := json.codec) mem _ _ _ Hl Hin Hnil).
Defined.

Lemma watcher_and_listing_agree_witness :
  listable annotated_secret
  ∧ ∃ svcs,
      ListServices_loop (J := json.codec) [annotated_secret] ∅ = Returns svcs
      ∧ ∀ n, n ∈ dom svcs
             ↔ n ∈ (λ r, Service_Name (Result_Service r))
                     <$> buildSecretResults (J := json.codec) annotated_secret "create".
Proof.
  split; [exact annotated_secret_listable|].
  exact (watcher_and_listing_agree (J := json.codec) annotated_secret "create"
           annotated_secret_listable).
Defined.

Lemma Stop_twice_closes_once_witness :
  panicked two_stops = None
  ∧ next_closed two_stops = false
  ∧ find_sender 0 (goroutines two_stops) = None
  ∧ goroutines two_stops !! 1 = Some {| code := Stop ++ Stop ++ [INext]; got := [] |}
  ∧ code {| code := Stop ++ Stop ++ [INext]; got := [] |} = Stop ++ Stop ++ [INext]
  ∧ exec (J := json.codec) [1; 1; 1; 1; 1] two_stops
    = Some {| next_closed := true; upstream := upstream two_stops; upstream_stopped := true;
              goroutines := <[ 1 := {| code := [INext]; got := [] |} ]> (goroutines two_stops);
              panicked := None |}.
Proof.
  split_and!; [reflexivity | reflexivity | reflexivity | reflexivity | reflexivity |].
  exact (proj2 (Stop_twice_closes_once (J := json.codec) two_stops 1
                  {| code := Stop ++ Stop ++ [INext]; got := [] |} [INext]
                  eq_refl eq_refl eq_refl eq_refl eq_refl)).
Defined.

(** ** The JSON codec reads back what it writes *)

Lemma print_Array (vs : list json.value) :
  json.print (json.Array vs) = "["%char :: print_elements vs ++ ["]"%char].
Proof. reflexivity. Qed.

Lemma print_Object (kvs : list (string * json.value)) :
  json.print (json.Object kvs) = "{"%char :: print_members kvs ++ ["}"%char].
Proof. reflexivity. Qed.

Lemma need_Array vs : need (json.Array vs) = 2 + need_elements vs.
Proof. reflexivity. Qed.

Lemma need_Object kvs : need (json.Object kvs) = 2 + need_members kvs.
Proof.
  induction kvs as [|[k v] kvs IH]; [done|]. cbn in *.
  unfold need_members in IH. injection IH as IH. by rewrite IH.
Qed.

Lemma skip_space_head (c : ascii) (cs : list ascii) :
  json.is_space c = false → json.skip_space (c :: cs) = c :: cs.
Proof. intros Hc. cbn. by rewrite Hc. Qed.

Lemma skip_space_starts (cs rest : list ascii) :
  starts_value cs → json.skip_space (cs ++ rest) = cs ++ rest.
Proof. destruct cs as [|c cs]; [done|]. intros [Hc _]. by apply skip_space_head. Qed.

Lemma digit_char (c : ascii) (d : Z) :
  json.digit c = Some d →
  json.is_space c = false
  ∧ Ascii.eqb c json.dquote = false ∧ Ascii.eqb c "[" = false
  ∧ Ascii.eqb c "{" = false ∧ Ascii.eqb c "-" = false
  ∧ c ≠ "]"%char ∧ c ≠ "}"%char.
Proof.
  destruct c as [[] [] [] [] [] [] [] []]; vm_compute; intros H;
    try discriminate H; by repeat split.
Qed.

Lemma digit_pretty_N_char (d : N) :
  (d < 10)%N → json.digit (pretty_N_char d) = Some (Z.of_N d).
Proof.
  intros Hd.
  assert (d = 0 ∨ d = 1 ∨ d = 2 ∨ d = 3 ∨ d = 4 ∨ d = 5 ∨ d = 6 ∨ d = 7 ∨ d = 8 ∨ d = 9)%N
    as Hcases by lia.
  destruct_or!; subst d; reflexivity.
Qed.

Lemma parse_digits_stop (rest : list ascii) (acc : Z) :
  ends_number rest → json.parse_digits rest acc = (acc, rest).
Proof. destruct rest as [|c rest]; [done|]. cbn. by intros ->. Qed.

Lemma chars_String (c : ascii) (s : string) : json.chars (String c s) = c :: json.chars s.
Proof. reflexivity. Qed.

(** The digits [pretty_N_go] writes in front of [s], and what
    [parse_digits] makes of them. *)
Lemma pretty_N_go_digits (x : N) :
  ∀ s, ∃ ds m,
    json.chars (pretty_N_go x s) = ds ++ json.chars s
    ∧ ((0 < x)%N → ∃ c d tl, ds = c :: tl ∧ json.digit c = Some d)
    ∧ ∀ acc rest,
        json.parse_digits (ds ++ rest) acc
        = json.parse_digits rest (acc * m + Z.of_N x)%Z.
Proof.
  induction (N.lt_wf_0 x) as [x _ IH]; intros s.
  assert (x = 0 ∨ 0 < x)%N as [->|Hx] by lia.
  - exists [], 1%Z. rewrite pretty_N_go_0. split_and!; [done | lia |].
    intros acc rest. cbn. f_equal. lia.
  - rewrite pretty_N_go_step by done.
    destruct (IH (x `div` 10)%N) with (s := String (pretty_N_char (x `mod` 10)) s)
      as (ds & m & Hds & Hhead & Hparse); [by apply N.div_lt|].
    pose proof (digit_pretty_N_char (x `mod` 10)%N) as Hdigit.
    rewrite Hds, chars_String.
    exists (ds ++ [pretty_N_char (x `mod` 10)]), (m * 10)%Z. split_and!.
    + by rewrite <- app_assoc.
    + intros _. destruct ds as [|c tl].
      * eexists _, _, []. split; [done|]. apply Hdigit. by apply N.mod_lt.
      * assert (0 < x `div` 10)%N as Hdiv.
        { destruct (decide (0 < x `div` 10)%N) as [|Hn]; [done|].
          assert (x `div` 10 = 0)%N as H0 by (by apply N.le_0_r, N.nlt_ge). rewrite H0, pretty_N_go_0 in Hds.
          apply (f_equal length) in Hds. rewrite length_app in Hds.
          cbn [length] in Hds. lia. }
        destruct (Hhead Hdiv) as (c' & d & tl' & [= <- <-] & Hd).
        eexists c, d, _. split; [done | done].
    + intros acc rest. rewrite <- app_assoc. cbn [app]. rewrite Hparse. cbn.
      rewrite Hdigit by (by apply N.mod_lt). f_equal.
      pose proof (N.div_mod x 10). lia.
Qed.

(** *** Equations of the parser *)

Lemma parse_value_digit (f : nat) (c : ascii) (cs : list ascii) (d : Z) :
  json.digit c = Some d →
  json.parse_value (S f) (c :: cs)
  = (let '(n, rest) := json.parse_digits (c :: cs) 0 in Some (json.Number n, rest)).
Proof.
  intros Hd. destruct (digit_char c d Hd) as (Hsp & Hq & Hb & Hc & Hm & _).
  cbn [json.parse_value]. rewrite (skip_space_head c cs Hsp).
  by rewrite Hq, Hb, Hc, Hm, Hd.
Qed.

Lemma parse_value_minus (f : nat) (c : ascii) (cs : list ascii) (d : Z) :
  json.digit c = Some d →
  json.parse_value (S f) ("-"%char :: c :: cs)
  = (let '(n, rest) := json.parse_digits (c :: cs) 0 in Some (json.Number (- n), rest)).
Proof. intros Hd. cbn [json.parse_value]. cbn. by rewrite Hd. Qed.

Lemma parse_value_quote (f : nat) (cs : list ascii) :
  json.parse_value (S f) (json.dquote :: cs)
  = ('(s, rest) ← json.parse_chars cs []; Some (json.Str s, rest)).
Proof. reflexivity. Qed.

Lemma parse_value_bracket (f : nat) (c : ascii) (cs : list ascii) :
  json.is_space c = false → c ≠ "]"%char →
  json.parse_value (S f) ("["%char :: c :: cs) = json.parse_elements f (c :: cs) [].
Proof.
  intros Hsp Hne. cbn [json.parse_value]. cbn [json.skip_space json.is_space].
  change (json.skip_space ("["%char :: c :: cs)) with ("["%char :: c :: cs).
  cbn. rewrite Hsp.
  destruct c as [[] [] [] [] [] [] [] []]; try reflexivity. by destruct Hne.
Qed.

Lemma parse_value_bracket_empty (f : nat) (rest : list ascii) :
  json.parse_value (S f) ("["%char :: "]"%char :: rest) = Some (json.Array [], rest).
Proof. reflexivity. Qed.

Lemma parse_value_brace (f : nat) (cs : list ascii) :
  json.parse_value (S f) ("{"%char :: json.dquote :: cs)
  = json.parse_members f (json.dquote :: cs) [].
Proof. reflexivity. Qed.

Lemma parse_value_brace_empty (f : nat) (rest : list ascii) :
  json.parse_value (S f) ("{"%char :: "}"%char :: rest) = Some (json.Object [], rest).
Proof. reflexivity. Qed.

Lemma parse_elements_S (f : nat) (cs : list ascii) (acc : list json.value) :
  json.parse_elements (S f) cs acc
  = ('(v, cs1) ← json.parse_value f cs;
     match json.skip_space cs1 with
     | ","%char :: cs2 => json.parse_elements f cs2 (v :: acc)
     | "]"%char :: cs2 => Some (json.Array (rev (v :: acc)), cs2)
     | _ => None
     end).
Proof. reflexivity. Qed.

Lemma parse_members_S (f : nat) (cs : list ascii) (acc : list (string * json.value)) :
  json.parse_members (S f) (json.dquote :: cs) acc
  = ('(k, cs1) ← json.parse_chars cs [];
     match json.skip_space cs1 with
     | ":"%char :: cs2 =>
         '(v, cs3) ← json.parse_value f cs2;
         match json.skip_space cs3 with
         | ","%char :: cs4 => json.parse_members f cs4 ((k, v) :: acc)
         | "}"%char :: cs4 => Some (json.Object (rev ((k, v) :: acc)), cs4)
         | _ => None
         end
     | _ => None
     end).
Proof. reflexivity. Qed.

(** *** Strings *)

Lemma parse_chars_escape (cs : list ascii) :
  ∀ acc rest,
    json.parse_chars (json.escape cs ++ json.dquote :: rest) acc
    = Some (json.text (rev acc ++ cs), rest).
Proof.
  induction cs as [|c cs IH]; intros acc rest.
  - cbn. by rewrite app_nil_r.
  - cbn [json.escape].
    destruct (Ascii.eqb c json.dquote || Ascii.eqb c json.backslash) eqn:Hc.
    + cbn [app json.parse_chars].
      change (Ascii.eqb json.backslash json.dquote) with false.
      change (Ascii.eqb json.backslash json.backslash) with true.
      cbn iota. rewrite Hc, IH. cbn [rev]. by rewrite <- app_assoc.
    + apply orb_false_elim in Hc as [Hq Hb].
      cbn [app json.parse_chars]. rewrite Hq, Hb, IH. cbn [rev]. by rewrite <- app_assoc.
Qed.

Lemma parse_chars_quote (s : string) (rest : list ascii) :
  json.parse_chars (json.escape (json.chars s) ++ json.dquote :: rest) [] = Some (s, rest).
Proof.
  rewrite parse_chars_escape. cbn [rev app]. unfold json.text, json.chars.
  by rewrite String.string_of_list_ascii_of_string.
Qed.

Lemma quote_cons (s : string) :
  json.quote s = json.dquote :: json.escape (json.chars s) ++ [json.dquote].
Proof. reflexivity. Qed.

(** *** Values *)

Lemma value_nested_ind (P : json.value → Prop) :
  P json.Null →
  (∀ b, P (json.Bool b)) →
  (∀ n, P (json.Number n)) →
  (∀ s, P (json.Str s)) →
  (∀ vs, Forall P vs → P (json.Array vs)) →
  (∀ kvs, Forall (λ kv, P kv.2) kvs → P (json.Object kvs)) →
  ∀ v, P v.
Proof.
  intros HNull HBool HNumber HStr HArray HObject.
  fix IH 1. intros [|b|n|s|vs|kvs].
  - exact HNull.
  - apply HBool.
  - apply HNumber.
  - apply HStr.
  - apply HArray. induction vs as [|v vs IHvs]; constructor; [apply IH | exact IHvs].
  - apply HObject. induction kvs as [|[k v] kvs IHkvs]; constructor; [apply IH | exact IHkvs].
Qed.

Lemma starts_value_length (cs : list ascii) : starts_value cs → (1 ≤ length cs)%nat.
Proof. destruct cs; [done|]. cbn. lia. Qed.

Lemma reads_back_Null : reads_back json.Null.
Proof.
  split_and!; [by vm_compute | cbn; lia |].
  intros [|f] rest Hf _; [cbn in Hf; lia | reflexivity].
Qed.

Lemma reads_back_Bool (b : bool) : reads_back (json.Bool b).
Proof.
  destruct b; (split_and!; [by vm_compute | cbn; lia |]);
    (intros [|f] rest Hf _; [cbn in Hf; lia | reflexivity]).
Qed.

Lemma reads_back_Str (s : string) : reads_back (json.Str s).
Proof.
  split_and!.
  - by vm_compute.
  - cbn. lia.
  - intros [|f] rest Hf _; [cbn in Hf; lia|].
    change (json.print (json.Str s)) with (json.quote s). rewrite quote_cons.
    cbn [app]. rewrite <- app_assoc. cbn [app].
    by rewrite parse_value_quote, parse_chars_quote.
Qed.

Lemma pretty_pos_digits (p : positive) :
  ∃ c d tl,
    json.chars (pretty (N.pos p)) = c :: tl
    ∧ json.digit c = Some d
    ∧ ∀ rest, ends_number rest →
              json.parse_digits ((c :: tl) ++ rest) 0 = (Z.pos p, rest).
Proof.
  unfold pretty, pretty_N. case_decide; [done|].
  destruct (pretty_N_go_digits (N.pos p) EmptyString) as (ds & m & Hds & Hhead & Hparse).
  destruct Hhead as (c & d & tl & -> & Hd); [lia|].
  exists c, d, tl. split_and!; [by rewrite Hds, app_nil_r | done |].
  intros rest Hrest. rewrite Hparse, parse_digits_stop by done. done.
Qed.

Lemma reads_back_Number (n : Z) : reads_back (json.Number n).
Proof.
  unfold reads_back. change (json.print (json.Number n)) with (json.chars (pretty n)).
  change (need (json.Number n)) with 1.
  destruct n as [|p|p].
  - split_and!; [by vm_compute | cbn; lia |].
    intros [|f] rest Hf Hrest; [lia|].
    change (json.chars (pretty 0%Z)) with ["0"%char]. cbn [app].
    rewrite (parse_value_digit f "0" rest 0) by done.
    cbn [json.parse_digits]. change (json.digit "0") with (Some 0%Z). cbn iota.
    by rewrite parse_digits_stop.
  - destruct (pretty_pos_digits p) as (c & d & tl & Hc & Hd & Hparse).
    change (pretty (Z.pos p)) with (pretty (N.pos p)). rewrite Hc.
    destruct (digit_char c d Hd) as (Hsp & _ & _ & _ & _ & Hb & Hbr).
    split_and!; [done | cbn; lia |].
    intros [|f] rest Hf Hrest; [lia|].
    cbn [app]. rewrite (parse_value_digit f c _ d Hd).
    change (c :: tl ++ rest) with ((c :: tl) ++ rest). by rewrite Hparse.
  - destruct (pretty_pos_digits p) as (c & d & tl & Hc & Hd & Hparse).
    change (json.chars (pretty (Z.neg p)))
      with ("-"%char :: json.chars (pretty (N.pos p))). rewrite Hc.
    split_and!; [by vm_compute | cbn; lia |].
    intros [|f] rest Hf Hrest; [lia|].
    cbn [app]. rewrite (parse_value_minus f c _ d Hd).
    change (c :: tl ++ rest) with ((c :: tl) ++ rest). by rewrite Hparse.
Qed.

(** *** Arrays and objects *)

Lemma print_elements_cons2 (v v2 : json.value) (vs : list json.value) :
  print_elements (v :: v2 :: vs) = json.print v ++ ","%char :: print_elements (v2 :: vs).
Proof. reflexivity. Qed.

Lemma print_members_one (k : string) (v : json.value) :
  print_members [(k, v)]
  = json.dquote :: json.escape (json.chars k) ++ json.dquote :: ":"%char :: json.print v.
Proof.
  cbn [print_members]. rewrite quote_cons. cbn [app json.chars String.list_ascii_of_string].
  by rewrite <- app_assoc.
Qed.

Lemma print_members_cons2 (k : string) (v : json.value) (kv2 : string * json.value)
    (kvs : list (string * json.value)) :
  print_members ((k, v) :: kv2 :: kvs)
  = json.dquote :: json.escape (json.chars k)
    ++ json.dquote :: ":"%char :: json.print v ++ ","%char :: print_members (kv2 :: kvs).
Proof.
  destruct kv2 as [k2 v2]. cbn [print_members]. rewrite quote_cons.
  cbn [app json.chars String.list_ascii_of_string]. by rewrite <- app_assoc.
Qed.

Lemma print_elements_starts (vs : list json.value) :
  Forall reads_back vs → vs ≠ [] → starts_value (print_elements vs).
Proof.
  intros Hall Hne. destruct Hall as [|v vs (Hstart & _) _]; [done|].
  destruct vs as [|v2 vs]; [done|]. rewrite print_elements_cons2.
  by destruct (json.print v).
Qed.

Lemma need_elements_bound (vs : list json.value) :
  Forall reads_back vs → (need_elements vs ≤ 2 * length (print_elements vs) + 1)%nat.
Proof.
  induction 1 as [|v vs (Hstart & Hneed & _) Hall IH]; [cbn; lia|].
  apply starts_value_length in Hstart.
  destruct vs as [|v2 vs].
  - cbn [need_elements foldr print_elements]. lia.
  - rewrite print_elements_cons2, length_app. cbn [length].
    change (need_elements (v :: v2 :: vs)) with (S (need v + need_elements (v2 :: vs))). lia.
Qed.

Lemma need_members_bound (kvs : list (string * json.value)) :
  Forall (λ kv, reads_back kv.2) kvs →
  (need_members kvs ≤ 2 * length (print_members kvs) + 1)%nat.
Proof.
  induction 1 as [|[k v] kvs (Hstart & Hneed & _) Hall IH]; [cbn; lia|].
  cbn [snd] in *. apply starts_value_length in Hstart.
  destruct kvs as [|kv2 kvs].
  - rewrite print_members_one. cbn [length]. rewrite length_app. cbn [length].
    change (need_members [(k, v)]) with (S (need v + 0)). lia.
  - rewrite print_members_cons2. cbn [length]. rewrite length_app. cbn [length].
    rewrite length_app. cbn [length].
    change (need_members ((k, v) :: kv2 :: kvs))
      with (S (need v + need_members (kv2 :: kvs))). lia.
Qed.

Lemma parse_elements_reads_back (vs : list json.value) :
  Forall reads_back vs → vs ≠ [] →
  ∀ fuel acc rest,
    (need_elements vs ≤ fuel)%nat →
    json.parse_elements fuel (print_elements vs ++ "]"%char :: rest) acc
    = Some (json.Array (rev acc ++ vs), rest).
Proof.
  induction 1 as [|v vs (_ & _ & Hv) Hall IH]; [done|]. intros _ fuel acc rest Hfuel.
  change (need_elements (v :: vs)) with (S (need v + need_elements vs)) in Hfuel.
  destruct fuel as [|f]; [lia|]. rewrite parse_elements_S.
  destruct vs as [|v2 vs].
  - cbn [print_elements]. rewrite Hv; [|lia|done]. reflexivity.
  - rewrite print_elements_cons2, <- app_assoc. cbn [app].
    rewrite Hv; [|lia|done]. cbn [mbind option_bind].
    change (json.skip_space (","%char :: ?x)) with (","%char :: x). cbn.
    rewrite IH; [|done|lia]. cbn [rev]. by rewrite <- app_assoc.
Qed.

Lemma parse_members_reads_back (kvs : list (string * json.value)) :
  Forall (λ kv, reads_back kv.2) kvs → kvs ≠ [] →
  ∀ fuel acc rest,
    (need_members kvs ≤ fuel)%nat →
    json.parse_members fuel (print_members kvs ++ "}"%char :: rest) acc
    = Some (json.Object (rev acc ++ kvs), rest).
Proof.
  induction 1 as [|[k v] kvs (_ & _ & Hv) Hall IH]; [done|]. intros _ fuel acc rest Hfuel.
  cbn [snd] in Hv.
  change (need_members ((k, v) :: kvs)) with (S (need v + need_members kvs)) in Hfuel.
  destruct fuel as [|f]; [lia|].
  destruct kvs as [|kv2 kvs].
  - rewrite print_members_one. cbn [app]. rewrite parse_members_S.
    rewrite <- app_assoc. cbn [app]. rewrite parse_chars_quote. cbn [mbind option_bind].
    cbn. rewrite Hv; [|lia|done]. reflexivity.
  - rewrite print_members_cons2. cbn [app]. rewrite parse_members_S.
    rewrite <- app_assoc. cbn [app]. rewrite parse_chars_quote. cbn [mbind option_bind].
    rewrite <- app_assoc. cbn [app]. cbn.
    rewrite Hv; [|lia|done]. cbn.
    rewrite IH; [|done|lia]. cbn [rev]. by rewrite <- app_assoc.
Qed.

(** Every value is read back as it was printed. *)
Lemma print_reads_back (v : json.value) : reads_back v.
Proof.
  induction v as [|b|n|s|vs IH|kvs IH] using value_nested_ind.
  - apply reads_back_Null.
  - apply reads_back_Bool.
  - apply reads_back_Number.
  - apply reads_back_Str.
  - unfold reads_back. rewrite print_Array, need_Array. split_and!.
    + by vm_compute.
    + pose proof (need_elements_bound vs IH). cbn [length]. rewrite length_app. cbn [length]. lia.
    + intros [|f] rest Hf _; [lia|]. cbn [app]. rewrite <- app_assoc. cbn [app].
      destruct vs as [|v vs]; [apply parse_value_bracket_empty|].
      pose proof (print_elements_starts (v :: vs) IH) as Hstart.
      destruct (print_elements (v :: vs)) as [|c cs] eqn:Hpe; [by destruct Hstart|].
      cbn [app]. destruct Hstart as (Hsp & Hbr & _); [done|].
      rewrite parse_value_bracket by done.
      change (c :: cs ++ "]"%char :: rest) with ((c :: cs) ++ "]"%char :: rest).
      rewrite <- Hpe. rewrite parse_elements_reads_back; [done | done | done | lia].
  - unfold reads_back. rewrite print_Object, need_Object. split_and!.
    + by vm_compute.
    + pose proof (need_members_bound kvs IH). cbn [length]. rewrite length_app. cbn [length]. lia.
    + intros [|f] rest Hf _; [lia|]. cbn [app]. rewrite <- app_assoc. cbn [app].
      destruct kvs as [|[k v] kvs]; [apply parse_value_brace_empty|].
      assert (∃ cs, print_members ((k, v) :: kvs) = json.dquote :: cs) as [cs Hpm].
      { destruct kvs; [rewrite print_members_one | rewrite print_members_cons2]; eauto. }
      rewrite Hpm. cbn [app]. rewrite parse_value_brace.
      change (json.dquote :: cs ++ "}"%char :: rest) with ((json.dquote :: cs) ++ "}"%char :: rest).
      rewrite <- Hpm. rewrite parse_members_reads_back; [done | done | done | lia].
Qed.

Lemma parse_print (v : json.value) : json.parse (json.text (json.print v)) = Some v.
Proof.
  unfold json.parse, json.chars, json.text.
  rewrite String.list_ascii_of_string_of_list_ascii.
  destruct (print_reads_back v) as (_ & Hneed & Hparse).
  rewrite <- (app_nil_r (json.print v)) at 2.
  rewrite Hparse; [done | lia | done].
Qed.

(** *** Records *)

Lemma mapM_fmap_Some_inv {A B : Type} (f : B → option A) (g : A → B) (l : list A) :
  (∀ x, f (g x) = Some x) → mapM f (g <$> l) = Some l.
Proof.
  intros Hfg. induction l as [|x l IH]; [done|].
  cbn. rewrite Hfg. cbn. rewrite IH. done.
Qed.

Lemma list_to_map_rev_to_list {A : Type} (m : gmap string A) :
  list_to_map (rev (map_to_list m)) = m.
Proof.
  rewrite <- (list_to_map_to_list m) at 2.
  symmetry. apply list_to_map_proper; [apply NoDup_fst_map_to_list|].
  apply Permutation_rev.
Qed.

Lemma as_map_of_map (m : gmap string string) :
  json.as_map json.as_string (json.of_map json.Str m) = Some m.
Proof.
  unfold json.as_map, json.of_map.
  rewrite (mapM_fmap_Some_inv _ _ (map_to_list m)); [|by intros [k v]].
  cbn. by rewrite list_to_map_rev_to_list.
Qed.

Lemma as_Node_of_Node (n : Node) : json.as_Node (json.of_Node n) = Some n.
Proof.
  destruct n as [id address port metadata]. unfold json.as_Node, json.of_Node.
  cbn [Node_Id Node_Address Node_Port Node_Metadata].
  change (json.field "id" _) with (json.Str id).
  change (json.field "address" _) with (json.Str address).
  change (json.field "port" _) with (json.Number port).
  change (json.field "metadata" _) with (json.of_map json.Str metadata).
  cbn [json.as_string json.as_int mbind option_bind]. by rewrite as_map_of_map.
Qed.

Lemma as_Service_of_Service (s : Service) : json.as_Service (json.of_Service s) = Some s.
Proof.
  destruct s as [name version metadata nodes]. unfold json.as_Service, json.of_Service.
  cbn [Service_Name Service_Version Service_Metadata Service_Nodes].
  change (json.field "name" _) with (json.Str name).
  change (json.field "version" _) with (json.Str version).
  change (json.field "metadata" _) with (json.of_map json.Str metadata).
  change (json.field "nodes" _) with (json.Array (json.of_Node <$> nodes)).
  cbn [json.as_string mbind option_bind]. rewrite as_map_of_map. cbn [mbind option_bind].
  unfold json.as_list. rewrite (mapM_fmap_Some_inv _ _ nodes as_Node_of_Node). done.
Qed.

(** What the codec writes for a service, it reads back as that service. *)
Lemma Unmarshal_Marshal (s : Service) (b : string) :
  json.Marshal s = inl b → json.Unmarshal b = Some s.
Proof.
  intros Hb.
  assert (b = json.text (json.print (json.of_Service s))) as ->
    by (unfold json.Marshal in Hb; congruence).
  unfold json.Unmarshal. rewrite parse_print. cbn.
  apply as_Service_of_Service.
Qed.

Lemma codec_faithful : faithful (J := json.codec).
Proof.
  intros s b Hb. exists s. split; [by apply Unmarshal_Marshal|].
  split; [reflexivity | intros n; reflexivity].
Qed.

(** ** The round trip on sample data *)


